(** * Lakeside Retreat image scripts: audit-images.py and optimize-images.py

    A shallow embedding of the two maintenance scripts under [scripts/]:
    - [Audit]: the classification of root images into three buckets and the
      [--clean] move into [images/_archive/];
    - [Optimize]: the per-file optimizer [optimize_image] and the batch loop of
      [main], with the Pillow calls as a small model of an imaging library and
      Python's float arithmetic as IEEE double rounding. *)

From Stdlib Require Import ZArith Lia List String Ascii Bool Permutation Sorted.
Import ListNotations.
Open Scope Z_scope.

(** ** Python string helpers *)

Module PyStr.

(** ASCII [str.lower]. *)
Definition lower_char (c : ascii) : ascii :=
  let n := nat_of_ascii c in
  if (Nat.leb 65 n && Nat.leb n 90)%bool then ascii_of_nat (n + 32) else c.

Fixpoint lower (s : string) : string :=
  match s with
  | EmptyString => EmptyString
  | String c s' => String (lower_char c) (lower s')
  end.

(** [s.rfind('.')], with [None] for -1. *)
Fixpoint rfind_dot_from (i : nat) (s : string) (acc : option nat) : option nat :=
  match s with
  | EmptyString => acc
  | String c s' =>
      rfind_dot_from (S i) s' (if Ascii.eqb c "." then Some i else acc)
  end.

Definition rfind_dot (s : string) : option nat := rfind_dot_from 0 s None.

(** [PurePath.suffix]: [name[i:]] when [0 < i < len(name) - 1], else [''] . *)
Definition suffix (name : string) : string :=
  match rfind_dot name with
  | Some i =>
      if (Nat.ltb 0 i && Nat.ltb i (String.length name - 1))%bool
      then substring i (String.length name - i) name
      else EmptyString
  | None => EmptyString
  end.

Definition mem (s : string) (l : list string) : bool :=
  existsb (String.eqb s) l.

End PyStr.

(** ** audit-images.py *)

Module Audit.

Import PyStr.

(** A directory entry of [images/]: [glob('*')] yields files and directories. *)
Inductive node :=
| NFile
| NDir (contents : list string).

Record entry := mkEntry { ename : string; enode : node }.

Definition ARCHIVE := "_archive"%string.

Definition is_archive (e : entry) : bool := String.eqb (ename e) ARCHIVE.

Definition IMAGE_EXTS : list string :=
  [".jpg"; ".jpeg"; ".png"; ".webp"; ".gif"; ".ico"]%string.

Section WithLower.

(** [str.lower] as the interpreter implements it; every theorem below holds
    for any such function. *)
Variable py_lower : string -> string.

(** Line 41: [root_images = [f for f in root_files if f.suffix.lower() in (...)]]. *)
Definition is_image (e : entry) : bool :=
  mem (py_lower (suffix (ename e))) IMAGE_EXTS.

Definition root_images (root : list entry) : list entry :=
  filter is_image root.

(** Line 44: [public_images = set(f.name.lower() for f in PUBLIC_IMAGES.glob('*'))]. *)
Definition public_set (public_names : list string) : list string :=
  map py_lower public_names.

Inductive bucket := HasPublicCopy | ReferencedButMissing | Unreferenced.

Definition bucket_eqb (a b : bucket) : bool :=
  match a, b with
  | HasPublicCopy, HasPublicCopy
  | ReferencedButMissing, ReferencedButMissing
  | Unreferenced, Unreferenced => true
  | _, _ => false
  end.

(** Lines 60-69: the [if / elif / else] of the categorising loop. *)
Definition classify (public_images html_refs : list string) (img : entry) : bucket :=
  if mem (py_lower (ename img)) public_images then HasPublicCopy
  else if mem (ename img) html_refs then ReferencedButMissing
  else Unreferenced.

(** The loop appends each image to one of three lists, in enumeration order. *)
Definition categorize_step (public_images html_refs : list string)
  (acc : list entry * list entry * list entry) (img : entry)
  : list entry * list entry * list entry :=
  let '(has_public_copy, referenced_but_missing, unreferenced) := acc in
  match classify public_images html_refs img with
  | HasPublicCopy => (has_public_copy ++ [img], referenced_but_missing, unreferenced)
  | ReferencedButMissing => (has_public_copy, referenced_but_missing ++ [img], unreferenced)
  | Unreferenced => (has_public_copy, referenced_but_missing, unreferenced ++ [img])
  end.

Definition categorize (public_images html_refs : list string) (imgs : list entry)
  : list entry * list entry * list entry :=
  fold_left (categorize_step public_images html_refs) imgs ([], [], []).

(** Line 89: [archive_dir.mkdir(exist_ok=True)]; [None] is the
    [FileExistsError] raised when [_archive] exists but is not a directory. *)
Definition mkdir_archive (root : list entry) : option (list entry) :=
  match find is_archive root with
  | None => Some (root ++ [mkEntry ARCHIVE (NDir [])])
  | Some (mkEntry _ (NDir _)) => Some root
  | Some (mkEntry _ NFile) => None
  end.

(** Line 93: [shutil.move(str(f), str(archive_dir / f.name))] renames [f]
    into [_archive/], replacing an entry of the same name there. *)
Definition archive_add (n : string) (e : entry) : entry :=
  if String.eqb (ename e) ARCHIVE then
    match enode e with
    | NDir cs => mkEntry ARCHIVE (NDir (n :: remove string_dec n cs))
    | NFile => e
    end
  else e.

Definition move_to_archive (root : list entry) (f : entry) : list entry :=
  map (archive_add (ename f))
      (filter (fun e => negb (String.eqb (ename e) (ename f))) root).

Definition archive_contents (root : list entry) : list string :=
  match find is_archive root with
  | Some (mkEntry _ (NDir cs)) => cs
  | _ => []
  end.

Record audit_run := mkRun {
  has_public_copy : list entry;
  referenced_but_missing : list entry;
  unreferenced : list entry;
  moved : list entry;
  root_after : list entry
}.

(** [main()] of audit-images.py from line 39 on, for an existing [images/]
    directory listed as [root], the names in [public/images/] and the set of
    paths the regex of line 48 extracts from [public/index.html].
    [None] is an uncaught exception. *)
Definition audit (clean : bool) (root : list entry)
  (public_names html_refs : list string) : option audit_run :=
  let imgs := root_images root in
  let pub := public_set public_names in
  let '(a, b, c) := categorize pub html_refs imgs in
  if clean then
    match mkdir_archive root with
    | None => None
    | Some root1 =>
        let to_move := a ++ c in
        Some (mkRun a b c to_move (fold_left move_to_archive to_move root1))
    end
  else Some (mkRun a b c [] root).

End WithLower.

(** Line 48: [html_refs = set(re.findall(r'images/([^...]+)', html))], whose
    class excludes the double quote, the single quote, [)] and [\s].
    Characters are modelled by their code points below 256 (what [ascii]
    holds); there [\s] is [str.isspace]: 9-13, 28-32, 133 and 160. *)
Definition is_ref_delim (c : ascii) : bool :=
  let n := nat_of_ascii c in
  (Nat.eqb n 34 || Nat.eqb n 39 || Nat.eqb n 41 ||
   (Nat.leb 9 n && Nat.leb n 13) || (Nat.leb 28 n && Nat.leb n 32) ||
   Nat.eqb n 133 || Nat.eqb n 160)%bool.

Definition REF_PREFIX : string := "images/".

(** [s] without the prefix [p], if [s] starts with [p]. *)
Fixpoint strip_prefix (p s : string) : option string :=
  match p, s with
  | EmptyString, _ => Some s
  | String a p', String b s' => if Ascii.eqb a b then strip_prefix p' s' else None
  | String _ _, EmptyString => None
  end.

(** The greedy group [(...+)]: the longest run of non-delimiters, and the rest. *)
Fixpoint span_ref (s : string) : string * string :=
  match s with
  | EmptyString => (EmptyString, EmptyString)
  | String c s' =>
      if is_ref_delim c then (EmptyString, s)
      else let '(r, rest) := span_ref s' in (String c r, rest)
  end.

(** [re.findall]: try a match at each position from the left; after a
    match, go on from its end, otherwise from the next character.  Every
    round consumes a character, so [fuel] = the length of the text is enough. *)
Fixpoint findall_refs (fuel : nat) (s : string) : list string :=
  match fuel with
  | O => []
  | S fuel' =>
      match s with
      | EmptyString => []
      | String _ s' =>
          match strip_prefix REF_PREFIX s with
          | Some t =>
              match span_ref t with
              | (EmptyString, _) => findall_refs fuel' s'
              | (r, rest) => r :: findall_refs fuel' rest
              end
          | None => findall_refs fuel' s'
          end
      end
  end.

Definition html_refs_of (html : string) : list string :=
  findall_refs (String.length html) html.

End Audit.

(** ** Python floats (IEEE binary64)

    A finite double is a pair [(m, e)] standing for [m * 2^e].  Python rounds
    every [int / int], [int * float] and [float * float] to the nearest double,
    ties to even; [int(x)] truncates toward zero.  The sizes and pixel counts
    these scripts handle are far from the overflow and subnormal ranges, which
    the model leaves out; arguments of [round_div] are non-negative. *)

Module PyFloat.

Definition dbl := (Z * Z)%type.

(** [n / d] rounded to the nearest integer, ties to even ([d > 0]). *)
Definition round_half_even (n d : Z) : Z :=
  let q := n / d in
  let r := n mod d in
  if 2 * r <? d then q
  else if d <? 2 * r then q + 1
  else if Z.even q then q else q + 1.

(** [p / (q * 2^e)] as a fraction with integer numerator and denominator. *)
Definition scaled_num (p e : Z) : Z := if 0 <=? e then p else p * 2 ^ (- e).
Definition scaled_den (q e : Z) : Z := if 0 <=? e then q * 2 ^ e else q.

(** The double nearest to [p / q]: the exponent [e] puts the 53-bit
    significand [p / (q * 2^e)] in [[2^52, 2^53)], then it is rounded. *)
Definition round_div (p q : Z) : dbl :=
  let e0 := Z.log2 p - Z.log2 q - 53 in
  let e := if scaled_num p e0 / scaled_den q e0 <? 2 ^ 53 then e0 else e0 + 1 in
  (round_half_even (scaled_num p e) (scaled_den q e), e).

(** [float(n)] for [n >= 0]: exact below [2^53]. *)
Definition of_int (n : Z) : dbl := if n <? 2 ^ 53 then (n, 0) else round_div n 1.

(** The double nearest to [n * 2^e]. *)
Definition of_dyadic (n e : Z) : dbl :=
  if 0 <=? e then round_div (n * 2 ^ e) 1 else round_div n (2 ^ (- e)).

(** [x * y]. *)
Definition fmul (x y : dbl) : dbl := of_dyadic (fst x * fst y) (snd x + snd y).

(** [a / b] on two Python ints (true division, correctly rounded). *)
Definition int_truediv (a b : Z) : dbl := round_div a b.

(** [int(x)]. *)
Definition ftrunc (x : dbl) : Z :=
  if 0 <=? snd x then fst x * 2 ^ snd x else Z.quot (fst x) (2 ^ (- snd x)).

(** The literals [0.65], [0.85] and [0.5]. *)
Definition F0_65 : dbl := (5854679515581645, -53).
Definition F0_85 : dbl := (7656119366529843, -53).
Definition F0_5 : dbl := (1, -1).

(** [int(n * c)] for a Python int [n] and a float literal [c]. *)
Definition int_times (n : Z) (c : dbl) : Z := ftrunc (fmul (of_int n) c).

End PyFloat.

(** ** optimize-images.py *)

Module Optimize.

Import PyStr PyFloat.

Definition DEFAULT_JPEG_QUALITY : Z := 82.
Definition DEFAULT_WEBP_QUALITY : Z := 80.
Definition MAX_DIMENSION : Z := 2400.
Definition SKIP_IF_SMALLER_THAN : Z := 5 * 1024.

(** A [Path]: its directory, the name without its suffix, and [.suffix]. *)
Record path := mkPath { pdir : string; pstem : string; psuffix : string }.

Definition path_eqb (p q : path) : bool :=
  String.eqb (pdir p) (pdir q) && String.eqb (pstem p) (pstem q) &&
  String.eqb (psuffix p) (psuffix q).

(** [filepath.name] and [filepath.with_suffix(s)]. *)
Definition path_name (p : path) : string := pstem p ++ psuffix p.
Definition with_suffix (p : path) (s : string) : path := mkPath (pdir p) (pstem p) s.

(** What Pillow finds in a file: its pixel size, its mode, and whether the
    pixel data decodes (a truncated or corrupt body fails only when loaded). *)
Record image_data := mkImageData { iw : Z; ih : Z; imode : string; decodes : bool }.

(** A file: its byte size and, when Pillow can identify it, its image. *)
Record file := mkFile { fsize : Z; fimage : option image_data }.

(** The file system as the optimizer sees it, with the file handles held
    open by Pillow and the log of writes. *)
Record world := mkWorld {
  files : list (path * file);
  read_only : list path;
  open_fds : list path;
  writes : list path
}.

Fixpoint lookup (fs : list (path * file)) (p : path) : option file :=
  match fs with
  | [] => None
  | (q, f) :: fs' => if path_eqb q p then Some f else lookup fs' p
  end.

Definition write_file (w : world) (p : path) (f : file) : world :=
  mkWorld ((p, f) :: filter (fun qf => negb (path_eqb (fst qf) p)) (files w))
          (read_only w) (open_fds w) (writes w ++ [p]).

Fixpoint remove_one (p : path) (l : list path) : list path :=
  match l with
  | [] => []
  | q :: l' => if path_eqb q p then l' else q :: remove_one p l'
  end.

Definition release_fd (w : world) (p : path) : world :=
  mkWorld (files w) (read_only w) (remove_one p (open_fds w)) (writes w).

Definition acquire_fd (w : world) (p : path) : world :=
  mkWorld (files w) (read_only w) (p :: open_fds w) (writes w).

(** The exceptions the per-file code can raise. *)
Inductive exn :=
| FileNotFoundError (p : path)
| UnidentifiedImageError (p : path)
| ImageDecodeError
| PermissionError (p : path)
| EncoderError (fmt mode : string)
| ValueError (msg : string).

(** [str(e)]. *)
Definition str_exn (e : exn) : string :=
  match e with
  | FileNotFoundError p => "[Errno 2] No such file or directory: " ++ path_name p
  | UnidentifiedImageError p => "cannot identify image file " ++ path_name p
  | ImageDecodeError => "image file is truncated"
  | PermissionError p => "[Errno 13] Permission denied: " ++ path_name p
  | EncoderError fmt mode => "cannot write mode " ++ mode ++ " as " ++ fmt
  | ValueError msg => msg
  end.

(** A state and exception monad: Python statements run left to right, and a
    raised exception keeps the effects already performed. *)
Definition M (S A : Type) : Type := S -> S * (exn + A).

Definition ret {S A} (a : A) : M S A := fun s => (s, inr a).
Definition raise {S A} (e : exn) : M S A := fun s => (s, inl e).
Definition bind {S A B} (m : M S A) (k : A -> M S B) : M S B :=
  fun s => match m s with
           | (s', inl e) => (s', inl e)
           | (s', inr a) => k a s'
           end.

Notation "x <- m ;; k" := (bind m (fun x => k))
  (at level 61, m at next level, right associativity).
Notation "m ;;; k" := (bind m (fun _ => k)) (at level 61, right associativity).

(** An in-memory Pillow image; [im_fp] is the file it still reads from. *)
Record image := mkImage {
  im_w : Z; im_h : Z; im_mode : string;
  im_loaded : bool; im_decodes : bool; im_fp : option path
}.

Section Pillow.

(** The encoders: the byte size of an encoded image, and whether a format
    accepts a mode. *)
Variable encoded_size : string -> image -> Z -> Z.
Variable can_encode : string -> string -> bool.

Definition get_file_size (p : path) : M world Z :=
  fun w => match lookup (files w) p with
           | Some f => (w, inr (fsize f))
           | None => (w, inl (FileNotFoundError p))
           end.

Definition path_exists (p : path) : M world bool :=
  fun w => (w, inr (match lookup (files w) p with Some _ => true | None => false end)).

(** [Image.open]: reads the header lazily and keeps the file open; an
    unidentified file is closed again before the exception. *)
Definition image_open (p : path) : M world image :=
  fun w => match lookup (files w) p with
           | None => (w, inl (FileNotFoundError p))
           | Some f =>
               match fimage f with
               | None => (w, inl (UnidentifiedImageError p))
               | Some d =>
                   (acquire_fd w p,
                    inr (mkImage (iw d) (ih d) (imode d) false (decodes d) (Some p)))
               end
           end.

(** [Image.load]: decodes the pixels and then closes the file it read them
    from; a decoding failure leaves the file open. *)
Definition load (im : image) : M world image :=
  fun w =>
    if im_loaded im then (w, inr im)
    else if im_decodes im then
      (match im_fp im with Some p => release_fd w p | None => w end,
       inr (mkImage (im_w im) (im_h im) (im_mode im) true true None))
    else (w, inl ImageDecodeError).

(** [img.resize((nw, nh), ...)]: loads the pixels, then the C resampler
    refuses an empty target size. *)
Definition resize (im : image) (nw nh : Z) : M world image :=
  im' <- load im ;;
  if (nw <? 1) || (nh <? 1) then raise (ValueError "height and width must be > 0")
  else ret (mkImage nw nh (im_mode im') true true None).

Definition convert (im : image) (mode : string) : M world image :=
  im' <- load im ;; ret (mkImage (im_w im') (im_h im') mode true true None).

(** [img.save(p, fmt, ...)]: loads [img] in place (the returned image is the
    same object, now loaded), then writes [p]. *)
Definition save (im : image) (p : path) (fmt : string) (quality : Z) : M world image :=
  im' <- load im ;;
  fun w =>
    if negb (can_encode fmt (im_mode im')) then (w, inl (EncoderError fmt (im_mode im')))
    else if existsb (path_eqb p) (read_only w) then (w, inl (PermissionError p))
    else (write_file w p (mkFile (encoded_size fmt im' quality)
                                 (Some (mkImageData (im_w im') (im_h im') (im_mode im') true))),
          inr im').

(** [img.close()]; the model releases a handle only here and in [load]:
    Python's garbage collector, which closes a file object some time after
    its last reference is gone, is not modelled. *)
Definition close (im : image) : M world unit :=
  fun w => (match im_fp im with Some p => release_fd w p | None => w end, inr tt).

(** The per-file result dictionary of [optimize_image]. *)
Record stats := mkStats {
  sfile : string;
  original_size : Z;
  new_size : Z;
  webp_size : Z;
  skipped : bool;
  error : option string
}.

Definition with_new_size (st : stats) (n : Z) : stats :=
  mkStats (sfile st) (original_size st) n (webp_size st) (skipped st) (error st).
Definition with_webp_size (st : stats) (n : Z) : stats :=
  mkStats (sfile st) (original_size st) (new_size st) n (skipped st) (error st).
Definition with_skipped (st : stats) : stats :=
  mkStats (sfile st) (original_size st) (new_size st) (webp_size st) true (error st).
Definition with_error (st : stats) (msg : string) : stats :=
  mkStats (sfile st) (original_size st) (new_size st) (webp_size st) (skipped st) (Some msg).

(** Inside the [try] the code threads the world and the [stats] dictionary. *)
Definition St : Type := (world * stats)%type.

Definition lw {A} (m : M world A) : M St A :=
  fun s => let '(w, st) := s in let '(w', r) := m w in ((w', st), r).

Definition set_new_size (n : Z) : M St unit :=
  fun s => let '(w, st) := s in ((w, with_new_size st n), inr tt).
Definition set_webp_size (n : Z) : M St unit :=
  fun s => let '(w, st) := s in ((w, with_webp_size st n), inr tt).

(** Lines 76-77: [ratio = MAX_DIMENSION / max(w, h)] and
    [new_w, new_h = int(w * ratio), int(h * ratio)]. *)
Definition resize_dims (w h : Z) : Z * Z :=
  let ratio := int_truediv MAX_DIMENSION (Z.max w h) in
  (ftrunc (fmul (of_int w) ratio), ftrunc (fmul (of_int h) ratio)).

(** Lines 74-78: cap oversized images. *)
Definition cap_oversized (img : image) : M world image :=
  let w := im_w img in
  let h := im_h img in
  if MAX_DIMENSION <? Z.max w h then
    let '(new_w, new_h) := resize_dims w h in resize img new_w new_h
  else ret img.

Definition JPEG_EXTS : list string := [".jpg"; ".jpeg"]%string.

(** Lines 71-108, the body of the [try]. *)
Definition optimize_body (filepath : path) (ext : string) (original_size jq wq : Z)
  (dry_run : bool) : M St unit :=
  img <- lw (image_open filepath) ;;
  img <- lw (cap_oversized img) ;;
  img <- (if mem ext JPEG_EXTS then
            img <- (if negb dry_run then
                      img <- (if mem (im_mode img) ["CMYK"; "P"; "RGBA"]%string
                              then lw (convert img "RGB") else ret img) ;;
                      lw (save img filepath "JPEG" jq)
                    else ret img) ;;
            n <- (if negb dry_run then lw (get_file_size filepath)
                  else ret (int_times original_size F0_65)) ;;
            set_new_size n ;;;
            ret img
          else if String.eqb ext ".png" then
            img <- (if negb dry_run then lw (save img filepath "PNG" 0) else ret img) ;;
            n <- (if negb dry_run then lw (get_file_size filepath)
                  else ret (int_times original_size F0_85)) ;;
            set_new_size n ;;;
            ret img
          else ret img) ;;
  let webp_path := with_suffix filepath ".webp" in
  ex <- lw (path_exists webp_path) ;;
  img <- (if negb ex || negb dry_run then
            img <- (if mem (im_mode img) ["CMYK"; "P"]%string then lw (convert img "RGB")
                    else if String.eqb (im_mode img) "RGBA" && mem ext JPEG_EXTS
                    then lw (convert img "RGB") else ret img) ;;
            img <- (if negb dry_run then lw (save img webp_path "WEBP" wq) else ret img) ;;
            n <- (if negb dry_run then lw (get_file_size webp_path)
                  else ret (int_times original_size F0_5)) ;;
            set_webp_size n ;;;
            ret img
          else ret img) ;;
  lw (close img).

(** [optimize_image(filepath, jpeg_quality, webp_quality, dry_run)]: the size
    lookup of line 55 sits before the [try]; the [except Exception] of line
    110 records [str(e)] in the dictionary as it was when [e] was raised. *)
Definition optimize_image (filepath : path) (jq wq : Z) (dry_run : bool) : M world stats :=
  fun w =>
    match get_file_size filepath w with
    | (w1, inl e) => (w1, inl e)
    | (w1, inr original_size) =>
        let ext := lower (psuffix filepath) in
        let st := mkStats (path_name filepath) original_size original_size 0 false None in
        if original_size <? SKIP_IF_SMALLER_THAN then (w1, inr (with_skipped st))
        else match optimize_body filepath ext original_size jq wq dry_run (w1, st) with
             | ((w2, st2), inl e) => (w2, inr (with_error st2 (str_exn e)))
             | ((w2, st2), inr _) => (w2, inr st2)
             end
    end.

(** Lines 138-149 of [main]: the loop over the selected files, collecting
    the results and the three running totals. *)
Fixpoint batch_loop (fs : list path) (jq wq : Z) (dry_run : bool)
  (results : list stats) (total_original total_new total_webp : Z)
  : M world (list stats * Z * Z * Z) :=
  match fs with
  | [] => ret (results, total_original, total_new, total_webp)
  | f :: fs' =>
      st <- optimize_image f jq wq dry_run ;;
      batch_loop fs' jq wq dry_run (results ++ [st])
        (total_original + original_size st) (total_new + new_size st)
        (total_webp + webp_size st)
  end.

Definition run_batch (fs : list path) (jq wq : Z) (dry_run : bool)
  : M world (list stats * Z * Z * Z) :=
  batch_loop fs jq wq dry_run [] 0 0 0.

End Pillow.

(** [IMAGE_DIR / name] for an entry [name] of [IMAGE_DIR]: the stem is the
    name without its [.suffix]. *)
Definition path_of (dir name : string) : path :=
  let suf := suffix name in
  mkPath dir (substring 0 (String.length name - String.length suf) name) suf.

(** [sorted()] of the paths of one directory orders them by name (the
    directory part is common): an insertion sort on [str] comparison. *)
Fixpoint insert_name (n : string) (l : list string) : list string :=
  match l with
  | [] => [n]
  | m :: l' => if String.leb n m then n :: l else m :: insert_name n l'
  end.

Definition sort_names (l : list string) : list string := fold_right insert_name [] l.

Definition SELECT_EXTS : list string := [".jpg"; ".jpeg"; ".png"]%string.

(** Lines 124-128 of [main]: the paths given on the command line, or else
    the [.jpg], [.jpeg] and [.png] entries of [IMAGE_DIR] (named by
    [listing]) in sorted order. *)
Definition select_files (image_dir : string) (args : list path) (listing : list string)
  : list path :=
  match args with
  | [] => filter (fun p => mem (lower (psuffix p)) SELECT_EXTS)
                 (map (path_of image_dir) (sort_names listing))
  | _ :: _ => args
  end.

(** Pillow's encoders as far as these scripts use them: the modes each
    format can write ([WEBP] converts by itself), and a stand-in for the
    encoded byte size, used only to run the model on examples. *)
Definition pillow_can_encode (fmt mode : string) : bool :=
  if String.eqb fmt "JPEG" then mem mode ["1"; "L"; "RGB"; "RGBX"; "CMYK"; "YCbCr"]%string
  else if String.eqb fmt "PNG" then mem mode ["1"; "L"; "LA"; "I"; "I;16"; "P"; "RGB"; "RGBA"]%string
  else true.

Definition sample_encoded_size (fmt : string) (im : image) (quality : Z) : Z :=
  im_w im * im_h im / 10.

End Optimize.

(** ** A sample [public/images/] directory, to run the optimizer on *)

Module OptimizeExamples.

Import Optimize.

Definition IMAGE_DIR : string := "public/images".

Definition img (w h : Z) (mode : string) (ok : bool) : option image_data :=
  Some (mkImageData w h mode ok).

(** A 3000-byte icon, a photo with a WebP sibling, one without, an
    unreadable [.jpg], a truncated JPEG, a truncated CMYK JPEG and a tall
    photo; [missing.jpg] names no file. *)
Definition icon_jpg := mkPath IMAGE_DIR "icon" ".jpg".
Definition lake_jpg := mkPath IMAGE_DIR "lake" ".jpg".
Definition lake_webp := mkPath IMAGE_DIR "lake" ".webp".
Definition deck_jpg := mkPath IMAGE_DIR "deck" ".jpg".
Definition corrupt_jpg := mkPath IMAGE_DIR "corrupt" ".jpg".
Definition truncated_jpg := mkPath IMAGE_DIR "truncated" ".jpg".
Definition print_jpg := mkPath IMAGE_DIR "print" ".jpg".
Definition tall_jpg := mkPath IMAGE_DIR "tall" ".jpg".
Definition missing_jpg := mkPath IMAGE_DIR "missing" ".jpg".

Definition icon_file := mkFile 3000 (img 64 64 "RGB" true).
Definition lake_file := mkFile 6000 (img 100 100 "RGB" true).
Definition deck_file := mkFile 8000 (img 4000 3000 "RGB" true).
Definition corrupt_file := mkFile 6000 None.
Definition truncated_file := mkFile 6000 (img 100 100 "RGB" false).
Definition print_file := mkFile 6000 (img 100 100 "CMYK" false).
Definition tall_file := mkFile 9000 (img 2105 2526 "RGB" true).

Definition site : world :=
  mkWorld [(icon_jpg, icon_file); (lake_jpg, lake_file);
           (lake_webp, mkFile 2500 (img 100 100 "RGB" true));
           (deck_jpg, deck_file); (corrupt_jpg, corrupt_file);
           (truncated_jpg, truncated_file); (print_jpg, print_file);
           (tall_jpg, tall_file)] [] [] [].

End OptimizeExamples.

(** * Proofs *)

Module PyStrFacts.

Import PyStr.

Lemma mem_In s l : mem s l = true <-> In s l.
Proof.
  unfold mem. rewrite existsb_exists. split.
  - intros [x [Hx Heq]]. apply String.eqb_eq in Heq. subst. exact Hx.
  - intros H. exists s. split; [exact H | apply String.eqb_refl].
Qed.

Lemma mem_false_not_In s l : mem s l = false <-> ~ In s l.
Proof.
  rewrite <- mem_In. destruct (mem s l); split; congruence.
Qed.

Ltac mem_facts :=
  repeat match goal with
  | H : mem _ _ = true |- _ => apply mem_In in H
  | H : mem _ _ = false |- _ => apply mem_false_not_In in H
  end.

End PyStrFacts.

Module AuditFacts.

Import PyStr PyStrFacts Audit.

Section Facts.

Variable py_lower : string -> string.

Lemma categorize_step_eq pub refs a b c x :
  categorize_step py_lower pub refs (a, b, c) x =
  match classify py_lower pub refs x with
  | HasPublicCopy => (a ++ [x], b, c)
  | ReferencedButMissing => (a, b ++ [x], c)
  | Unreferenced => (a, b, c ++ [x])
  end.
Proof. reflexivity. Qed.

Lemma categorize_fold_In pub refs imgs a b c img :
  let '(a', b', c') := fold_left (categorize_step py_lower pub refs) imgs (a, b, c) in
  (In img a' <-> In img a \/ (In img imgs /\ classify py_lower pub refs img = HasPublicCopy)) /\
  (In img b' <-> In img b \/ (In img imgs /\ classify py_lower pub refs img = ReferencedButMissing)) /\
  (In img c' <-> In img c \/ (In img imgs /\ classify py_lower pub refs img = Unreferenced)).
Proof.
  revert a b c. induction imgs as [|x xs IH]; intros a b c; simpl.
  - intuition.
  - destruct (classify py_lower pub refs x) eqn:Hx; cbn iota beta;
      match goal with
      | |- context [fold_left _ xs (?a1, ?b1, ?c1)] =>
          specialize (IH a1 b1 c1);
          destruct (fold_left (categorize_step py_lower pub refs) xs (a1, b1, c1))
            as [[a' b'] c']
      end;
      destruct IH as [IHa [IHb IHc]];
      repeat split; intro H;
      repeat rewrite in_app_iff in *; simpl in *;
      repeat match goal with
      | H : _ <-> _ |- _ => rewrite H in *; clear H
      end;
      intuition (subst; congruence).
Qed.

Lemma categorize_all_missing pub refs imgs a b c :
  (forall img, In img imgs -> classify py_lower pub refs img = ReferencedButMissing) ->
  fold_left (categorize_step py_lower pub refs) imgs (a, b, c) = (a, b ++ imgs, c).
Proof.
  revert b. induction imgs as [|x xs IH]; intros b Hall; simpl.
  - rewrite app_nil_r. reflexivity.
  - rewrite (Hall x (or_introl eq_refl)).
    rewrite IH by (intros; apply Hall; right; assumption).
    rewrite <- app_assoc. reflexivity.
Qed.

Lemma find_app {A} (p : A -> bool) l1 l2 :
  find p (l1 ++ l2) = match find p l1 with Some x => Some x | None => find p l2 end.
Proof.
  induction l1 as [|x l1 IH]; simpl; [reflexivity|].
  destruct (p x); [reflexivity | exact IH].
Qed.

Lemma archive_add_name n e : ename (archive_add n e) = ename e.
Proof.
  unfold archive_add. destruct (String.eqb (ename e) ARCHIVE) eqn:H; [|reflexivity].
  destruct (enode e); [reflexivity|]. simpl. symmetry. apply String.eqb_eq, H.
Qed.

Lemma archive_add_other n e : ename e <> ARCHIVE -> archive_add n e = e.
Proof.
  intros H. unfold archive_add. apply String.eqb_neq in H. rewrite H. reflexivity.
Qed.

Lemma move_In_inv st f e :
  In e (move_to_archive st f) ->
  exists e0, In e0 st /\ e = archive_add (ename f) e0 /\ ename e0 <> ename f.
Proof.
  unfold move_to_archive. rewrite in_map_iff. intros [e0 [He Hin]].
  apply filter_In in Hin as [Hin Hn]. apply negb_true_iff, String.eqb_neq in Hn.
  exists e0. auto.
Qed.

Lemma move_In st f e :
  In e st -> ename e <> ename f -> ename e <> ARCHIVE -> In e (move_to_archive st f).
Proof.
  intros Hin Hn Ha. unfold move_to_archive. apply in_map_iff. exists e.
  split; [apply archive_add_other, Ha|].
  apply filter_In. split; [exact Hin|]. apply negb_true_iff, String.eqb_neq, Hn.
Qed.

Lemma move_names_absent st f x :
  (forall e, In e st -> ename e <> x) ->
  forall e, In e (move_to_archive st f) -> ename e <> x.
Proof.
  intros H e He. apply move_In_inv in He as [e0 [Hin [-> _]]].
  rewrite archive_add_name. apply H, Hin.
Qed.

Lemma move_find st f cs :
  find is_archive st = Some (mkEntry ARCHIVE (NDir cs)) -> ename f <> ARCHIVE ->
  find is_archive (move_to_archive st f) =
    Some (mkEntry ARCHIVE (NDir (ename f :: remove string_dec (ename f) cs))).
Proof.
  intros Hf Hn. unfold move_to_archive.
  assert (Hneq : String.eqb ARCHIVE (ename f) = false)
    by (apply String.eqb_neq; intro Heq; apply Hn; symmetry; exact Heq).
  induction st as [|e st IH]; [discriminate|].
  cbn [find] in Hf. destruct (is_archive e) eqn:Ha.
  - injection Hf as ->. cbn [filter ename]. rewrite Hneq. cbn [negb map find].
    unfold archive_add at 1; cbn [ename enode]. rewrite String.eqb_refl.
    unfold is_archive; cbn [ename]. rewrite String.eqb_refl. reflexivity.
  - assert (Hna : ename e <> ARCHIVE) by (apply String.eqb_neq, Ha).
    cbn [filter]. destruct (negb (String.eqb (ename e) (ename f))); [|exact (IH Hf)].
    cbn [map find]. rewrite (archive_add_other _ _ Hna), Ha. exact (IH Hf).
Qed.

Lemma fold_moves_find l st cs :
  find is_archive st = Some (mkEntry ARCHIVE (NDir cs)) ->
  (forall f, In f l -> ename f <> ARCHIVE) ->
  exists cs', find is_archive (fold_left move_to_archive l st) = Some (mkEntry ARCHIVE (NDir cs'))
    /\ (forall x, In x cs -> In x cs') /\ (forall f, In f l -> In (ename f) cs').
Proof.
  revert st cs. induction l as [|f l IH]; intros st cs Hf Hl; simpl.
  - exists cs. split; [exact Hf|]. split; [auto | intros _ []].
  - pose proof (move_find st f cs Hf (Hl f (or_introl eq_refl))) as Hm.
    destruct (IH _ _ Hm (fun g Hg => Hl g (or_intror Hg))) as [cs' [Hc' [Hsub Hin]]].
    exists cs'. split; [exact Hc'|]. split.
    + intros x Hx. apply Hsub.
      destruct (string_dec x (ename f)) as [->|Hne]; [left; reflexivity|].
      right. apply in_in_remove; assumption.
    + intros g [->|Hg]; [apply Hsub; left; reflexivity | apply Hin, Hg].
Qed.

Lemma fold_moves_absent l st x :
  (forall e, In e st -> ename e <> x) ->
  forall e, In e (fold_left move_to_archive l st) -> ename e <> x.
Proof.
  revert st. induction l as [|f l IH]; intros st H; simpl; [exact H|].
  apply IH. apply move_names_absent, H.
Qed.

Lemma fold_moves_gone l st :
  forall f, In f l -> forall e, In e (fold_left move_to_archive l st) -> ename e <> ename f.
Proof.
  revert st. induction l as [|g l IH]; intros st f Hf; [destruct Hf|].
  destruct Hf as [->|Hf]; simpl.
  - apply fold_moves_absent. intros e He.
    apply move_In_inv in He as [e0 [_ [-> Hne]]]. rewrite archive_add_name. exact Hne.
  - apply IH, Hf.
Qed.

Lemma fold_moves_keep l st e :
  In e st -> ename e <> ARCHIVE -> (forall f, In f l -> ename e <> ename f) ->
  In e (fold_left move_to_archive l st).
Proof.
  revert st. induction l as [|f l IH]; intros st Hin Ha Hl; simpl; [exact Hin|].
  apply IH; [|exact Ha|intros g Hg; apply Hl; right; exact Hg].
  apply move_In; [exact Hin | apply Hl; left; reflexivity | exact Ha].
Qed.

Lemma fold_moves_inv l st e :
  In e (fold_left move_to_archive l st) -> ename e <> ARCHIVE -> In e st.
Proof.
  revert st. induction l as [|f l IH]; intros st Hin Ha; simpl in Hin; [exact Hin|].
  apply IH in Hin; [|exact Ha].
  apply move_In_inv in Hin as [e0 [Hin0 [He _]]].
  rewrite He in Ha |- *. rewrite archive_add_name in Ha.
  rewrite archive_add_other by exact Ha. exact Hin0.
Qed.

Lemma mkdir_archive_spec root root1 :
  mkdir_archive root = Some root1 ->
  (exists cs, find is_archive root1 = Some (mkEntry ARCHIVE (NDir cs))) /\
  (forall e, In e root -> In e root1) /\
  (forall e, In e root1 -> ename e <> ARCHIVE -> In e root).
Proof.
  unfold mkdir_archive. destruct (find is_archive root) as [[n [|cs]]|] eqn:Hf;
    intros H; try discriminate; injection H as <-.
  - pose proof (find_some _ _ Hf) as [_ Hn]. unfold is_archive in Hn; simpl in Hn.
    apply String.eqb_eq in Hn. subst n.
    split; [exists cs; exact Hf|]. split; auto.
  - split; [exists []; rewrite find_app, Hf; reflexivity|]. split.
    + intros e He. apply in_or_app. left. exact He.
    + intros e He Ha. apply in_app_or in He as [He|[<-|[]]]; [exact He|].
      exfalso. apply Ha. reflexivity.
Qed.

Lemma mkdir_archive_existing root cs :
  find is_archive root = Some (mkEntry ARCHIVE (NDir cs)) -> mkdir_archive root = Some root.
Proof. intros H. unfold mkdir_archive. rewrite H. reflexivity. Qed.

Section Lower.

Hypothesis lower_empty : py_lower EmptyString = EmptyString.

Lemma image_not_archive e : is_image py_lower e = true -> ename e <> ARCHIVE.
Proof.
  intros H Heq. unfold is_image in H. rewrite Heq in H.
  change (suffix ARCHIVE) with EmptyString in H. rewrite lower_empty in H.
  discriminate H.
Qed.

End Lower.

End Facts.

End AuditFacts.

Module AuditClaims.

Import PyStr PyStrFacts Audit AuditFacts.

Lemma audit_buckets_eq py_lower clean root pub refs r :
  audit py_lower clean root pub refs = Some r ->
  categorize py_lower (public_set py_lower pub) refs (root_images py_lower root) =
    (has_public_copy r, referenced_but_missing r, unreferenced r).
Proof.
  unfold audit.
  destruct (categorize py_lower (public_set py_lower pub) refs (root_images py_lower root))
    as [[a b] c].
  destruct clean; [destruct (mkdir_archive root)|]; intros H; try discriminate;
    injection H as <-; reflexivity.
Qed.

Lemma audit_clean_eq py_lower root pub refs r :
  audit py_lower true root pub refs = Some r ->
  exists a b c root1,
    categorize py_lower (public_set py_lower pub) refs (root_images py_lower root) = (a, b, c) /\
    mkdir_archive root = Some root1 /\
    r = mkRun a b c (a ++ c) (fold_left move_to_archive (a ++ c) root1).
Proof.
  unfold audit.
  destruct (categorize py_lower (public_set py_lower pub) refs (root_images py_lower root))
    as [[a b] c] eqn:Hcat.
  destruct (mkdir_archive root) as [root1|] eqn:Hmk; intros H; [|discriminate].
  injection H as <-. exists a, b, c, root1. auto.
Qed.

Lemma classify_name py_lower pub refs e f :
  ename e = ename f -> classify py_lower pub refs e = classify py_lower pub refs f.
Proof. intros H. unfold classify. rewrite H. reflexivity. Qed.

Lemma categorized_In py_lower pub refs imgs a b c :
  categorize py_lower pub refs imgs = (a, b, c) ->
  (forall x, In x a <-> In x imgs /\ classify py_lower pub refs x = HasPublicCopy) /\
  (forall x, In x b <-> In x imgs /\ classify py_lower pub refs x = ReferencedButMissing) /\
  (forall x, In x c <-> In x imgs /\ classify py_lower pub refs x = Unreferenced).
Proof.
  intros H. unfold categorize in H.
  split; [|split]; intros x;
    pose proof (categorize_fold_In py_lower pub refs imgs [] [] [] x) as Hf;
    rewrite H in Hf; destruct Hf as [Ha [Hb Hc]]; simpl in *;
    [rewrite Ha | rewrite Hb | rewrite Hc]; intuition.
Qed.

(** C1: every enumerated root image lands in bucket A exactly when its
    lowercased name is in the lowercased [public/images/] set, otherwise in
    bucket B exactly when its exact name is among the HTML references, and in
    bucket C otherwise. *)
Theorem audit_classification py_lower clean root pub refs r img :
  audit py_lower clean root pub refs = Some r ->
  In img (root_images py_lower root) ->
  (In img (has_public_copy r) <-> In (py_lower (ename img)) (public_set py_lower pub)) /\
  (In img (referenced_but_missing r) <->
     ~ In (py_lower (ename img)) (public_set py_lower pub) /\ In (ename img) refs) /\
  (In img (unreferenced r) <->
     ~ In (py_lower (ename img)) (public_set py_lower pub) /\ ~ In (ename img) refs).
Proof.
  intros Hr Hin. apply audit_buckets_eq in Hr.
  destruct (categorized_In _ _ _ _ _ _ _ Hr) as [Ha [Hb Hc]].
  rewrite Ha, Hb, Hc. unfold classify.
  destruct (mem (py_lower (ename img)) (public_set py_lower pub)) eqn:E1;
    destruct (mem (ename img) refs) eqn:E2; mem_facts; intuition congruence.
Qed.

Lemma audit_classification_witness :
  let root := [mkEntry "a.JPG" NFile; mkEntry "b.png" NFile; mkEntry "c.gif" NFile;
               mkEntry "notes.txt" NFile]%string in
  let r := mkRun [mkEntry "a.JPG" NFile] [mkEntry "b.png" NFile] [mkEntry "c.gif" NFile]
             [] root in
  audit lower false root ["A.jpg"%string] ["b.png"%string] = Some r /\
  In (mkEntry "a.JPG" NFile) (root_images lower root) /\
  ((In (mkEntry "a.JPG" NFile) (has_public_copy r) <->
      In (lower "a.JPG") (public_set lower ["A.jpg"])) /\
   (In (mkEntry "a.JPG" NFile) (referenced_but_missing r) <->
      ~ In (lower "a.JPG") (public_set lower ["A.jpg"]) /\ In "a.JPG" ["b.png"]) /\
   (In (mkEntry "a.JPG" NFile) (unreferenced r) <->
      ~ In (lower "a.JPG") (public_set lower ["A.jpg"]) /\ ~ In "a.JPG" ["b.png"]))%string.
Proof.
  intros root r.
  assert (H1 : audit lower false root ["A.jpg"%string] ["b.png"%string] = Some r)
    by reflexivity.
  assert (H2 : In (mkEntry "a.JPG" NFile) (root_images lower root))
    by (simpl; left; reflexivity).
  split; [exact H1|]. split; [exact H2|].
  exact (audit_classification lower false root _ _ r _ H1 H2).
Defined.

Lemma moved_names_not_archive py_lower root pub refs a b c :
  py_lower EmptyString = EmptyString ->
  categorize py_lower (public_set py_lower pub) refs (root_images py_lower root) = (a, b, c) ->
  forall f, In f (a ++ c) -> In f (root_images py_lower root) /\ ename f <> ARCHIVE.
Proof.
  intros Hl Hcat f Hf.
  destruct (categorized_In _ _ _ _ _ _ _ Hcat) as [Ha [_ Hc]].
  assert (Hin : In f (root_images py_lower root))
    by (apply in_app_or in Hf as [Hf|Hf]; [apply Ha in Hf | apply Hc in Hf]; apply Hf).
  split; [exact Hin|]. apply filter_In in Hin as [_ Himg].
  exact (image_not_archive py_lower Hl f Himg).
Qed.

Lemma kept_images py_lower root pub refs a b c e :
  categorize py_lower (public_set py_lower pub) refs (root_images py_lower root) = (a, b, c) ->
  classify py_lower (public_set py_lower pub) refs e = ReferencedButMissing ->
  forall f, In f (a ++ c) -> ename e <> ename f.
Proof.
  intros Hcat He f Hf Heq.
  destruct (categorized_In _ _ _ _ _ _ _ Hcat) as [Ha [_ Hc]].
  rewrite (classify_name py_lower _ refs e f Heq) in He.
  apply in_app_or in Hf as [Hf|Hf]; [apply Ha in Hf | apply Hc in Hf];
    destruct Hf as [_ Hf]; congruence.
Qed.

(** C2: in clean mode exactly the images of buckets A and C are moved: each
    ends up in [images/_archive/] and no entry of that name remains in
    [images/], while every image of bucket B stays in [images/] unchanged and
    is never moved. *)
Theorem audit_clean_moves py_lower root pub refs r :
  py_lower EmptyString = EmptyString ->
  audit py_lower true root pub refs = Some r ->
  moved r = has_public_copy r ++ unreferenced r /\
  (forall f, In f (moved r) ->
     In (ename f) (archive_contents (root_after r)) /\
     forall e, In e (root_after r) -> ename e <> ename f) /\
  (forall e, In e (referenced_but_missing r) -> In e (root_after r) /\ ~ In e (moved r)).
Proof.
  intros Hl Hr.
  destruct (audit_clean_eq _ _ _ _ _ Hr) as [a [b [c [root1 [Hcat [Hmk ->]]]]]].
  cbn [moved has_public_copy unreferenced referenced_but_missing root_after].
  pose proof (moved_names_not_archive _ _ _ _ _ _ _ Hl Hcat) as Hmv.
  destruct (mkdir_archive_spec _ _ Hmk) as [[cs Hcs] [Hsub _]].
  split; [reflexivity|]. split.
  - intros f Hf. split.
    + destruct (fold_moves_find (a ++ c) root1 cs Hcs (fun g Hg => proj2 (Hmv g Hg)))
        as [cs' [Hf' [_ Hin]]].
      unfold archive_contents. rewrite Hf'. apply Hin, Hf.
    + apply fold_moves_gone, Hf.
  - intros e He.
    destruct (categorized_In _ _ _ _ _ _ _ Hcat) as [Ha [Hb Hc]].
    apply Hb in He as [Hin Hcl].
    pose proof (kept_images _ _ _ _ _ _ _ e Hcat Hcl) as Hk.
    split.
    + apply fold_moves_keep; [| |exact Hk].
      * apply Hsub. apply filter_In in Hin. apply Hin.
      * apply filter_In in Hin as [_ Himg]. exact (image_not_archive py_lower Hl e Himg).
    + intros Hm. exact (Hk e Hm eq_refl).
Qed.

Lemma audit_clean_moves_witness :
  let root := [mkEntry "a.JPG" NFile; mkEntry "b.png" NFile; mkEntry "c.gif" NFile;
               mkEntry "notes.txt" NFile]%string in
  let r := mkRun [mkEntry "a.JPG" NFile] [mkEntry "b.png" NFile] [mkEntry "c.gif" NFile]
             [mkEntry "a.JPG" NFile; mkEntry "c.gif" NFile]
             [mkEntry "b.png" NFile; mkEntry "notes.txt" NFile;
              mkEntry ARCHIVE (NDir ["c.gif"; "a.JPG"])]%string in
  lower EmptyString = EmptyString /\
  audit lower true root ["A.jpg"%string] ["b.png"%string] = Some r /\
  (moved r = has_public_copy r ++ unreferenced r /\
  (forall f, In f (moved r) ->
     In (ename f) (archive_contents (root_after r)) /\
     forall e, In e (root_after r) -> ename e <> ename f) /\
  (forall e, In e (referenced_but_missing r) -> In e (root_after r) /\ ~ In e (moved r))).
Proof.
  intros root r.
  assert (H0 : lower EmptyString = EmptyString) by reflexivity.
  assert (H1 : audit lower true root ["A.jpg"%string] ["b.png"%string] = Some r)
    by reflexivity.
  split; [exact H0|]. split; [exact H1|].
  exact (audit_clean_moves lower root _ _ r H0 H1).
Defined.

(** C9: running clean mode a second time finds [_archive/] already present
    and leaves it (no re-creation), moves nothing, and leaves [images/]
    exactly as the first run left it; in particular no file archived by the
    first run is moved again. *)
Theorem audit_clean_twice py_lower root pub refs r1 :
  py_lower EmptyString = EmptyString ->
  audit py_lower true root pub refs = Some r1 ->
  mkdir_archive (root_after r1) = Some (root_after r1) /\
  exists r2, audit py_lower true (root_after r1) pub refs = Some r2 /\
    moved r2 = [] /\ root_after r2 = root_after r1.
Proof.
  intros Hl Hr.
  destruct (audit_clean_eq _ _ _ _ _ Hr) as [a [b [c [root1 [Hcat [Hmk ->]]]]]].
  cbn [root_after].
  pose proof (moved_names_not_archive _ _ _ _ _ _ _ Hl Hcat) as Hmv.
  destruct (mkdir_archive_spec _ _ Hmk) as [[cs Hcs] [_ Hback]].
  destruct (fold_moves_find (a ++ c) root1 cs Hcs (fun g Hg => proj2 (Hmv g Hg)))
    as [cs' [Hf' _]].
  set (root2 := fold_left move_to_archive (a ++ c) root1) in *.
  assert (Hmk2 : mkdir_archive root2 = Some root2)
    by exact (mkdir_archive_existing _ _ Hf').
  split; [exact Hmk2|].
  assert (Hall : forall e, In e (root_images py_lower root2) ->
            classify py_lower (public_set py_lower pub) refs e = ReferencedButMissing).
  { intros e He. apply filter_In in He as [He Himg].
    pose proof (image_not_archive py_lower Hl e Himg) as Hna.
    assert (Hroot : In e root) by exact (Hback e (fold_moves_inv _ _ _ He Hna) Hna).
    destruct (categorized_In _ _ _ _ _ _ _ Hcat) as [Ha [_ Hc]].
    destruct (classify py_lower (public_set py_lower pub) refs e) eqn:Hcl; [| reflexivity |];
      exfalso.
    - assert (Hea : In e a) by (apply Ha; split; [apply filter_In; auto | exact Hcl]).
      exact (fold_moves_gone (a ++ c) root1 e (in_or_app _ _ _ (or_introl Hea)) e He eq_refl).
    - assert (Hec : In e c) by (apply Hc; split; [apply filter_In; auto | exact Hcl]).
      exact (fold_moves_gone (a ++ c) root1 e (in_or_app _ _ _ (or_intror Hec)) e He eq_refl). }
  unfold audit. unfold categorize at 1.
  rewrite (categorize_all_missing py_lower _ refs _ [] [] [] Hall).
  rewrite Hmk2. eexists. split; [reflexivity|]. split; reflexivity.
Qed.

Lemma audit_clean_twice_witness :
  let root := [mkEntry "a.JPG" NFile; mkEntry "b.png" NFile; mkEntry "c.gif" NFile]%string in
  let r1 := mkRun [mkEntry "a.JPG" NFile] [mkEntry "b.png" NFile] [mkEntry "c.gif" NFile]
             [mkEntry "a.JPG" NFile; mkEntry "c.gif" NFile]
             [mkEntry "b.png" NFile; mkEntry ARCHIVE (NDir ["c.gif"; "a.JPG"])]%string in
  lower EmptyString = EmptyString /\
  audit lower true root ["A.jpg"%string] ["b.png"%string] = Some r1 /\
  (mkdir_archive (root_after r1) = Some (root_after r1) /\
   exists r2, audit lower true (root_after r1) ["A.jpg"%string] ["b.png"%string] = Some r2 /\
     moved r2 = [] /\ root_after r2 = root_after r1).
Proof.
  intros root r1.
  assert (H0 : lower EmptyString = EmptyString) by reflexivity.
  assert (H1 : audit lower true root ["A.jpg"%string] ["b.png"%string] = Some r1)
    by reflexivity.
  split; [exact H0|]. split; [exact H1|].
  exact (audit_clean_twice lower root _ _ r1 H0 H1).
Defined.

End AuditClaims.

Module PyFloatFacts.

Import PyFloat.

Lemma round_half_even_spec n d :
  0 < d ->
  n / d <= round_half_even n d /\
  - d <= 2 * (round_half_even n d * d - n) <= d.
Proof.
  intros Hd. unfold round_half_even.
  pose proof (Z.div_mod n d ltac:(lia)) as Hnd.
  pose proof (Z.mod_pos_bound n d Hd) as Hr.
  set (q := n / d) in *. set (r := n mod d) in *.
  destruct (Z.ltb_spec (2 * r) d); [split; nia|].
  destruct (Z.ltb_spec d (2 * r)); [split; nia|].
  destruct (Z.even q); split; nia.
Qed.

Lemma pow2_pos k : 0 <= k -> 0 < 2 ^ k.
Proof. intros H. apply Z.pow_pos_nonneg; lia. Qed.

(** Rounding a quotient below [2^50]: the exponent is negative, the result is
    at least the floor of the scaled quotient and within half a unit of it,
    and the scaled quotient has at least 53 bits. *)
Lemma round_div_small p q :
  0 < p -> 0 < q -> p < 2 ^ 50 * q ->
  let '(m, e) := round_div p q in
  e < -1 /\
  p * 2 ^ (- e) / q <= m /\
  - q <= 2 * (m * q - p * 2 ^ (- e)) <= q /\
  2 ^ 52 * q <= p * 2 ^ (- e).
Proof.
  intros Hp Hq Hpq. unfold round_div.
  destruct (Z.log2_spec p Hp) as [Hp1 Hp2].
  destruct (Z.log2_spec q Hq) as [Hq1 Hq2].
  pose proof (Z.log2_nonneg p). pose proof (Z.log2_nonneg q).
  set (lp := Z.log2 p) in *. set (lq := Z.log2 q) in *.
  assert (Hl : lp <= lq + 50).
  { destruct (Z_le_gt_dec lp (lq + 50)) as [Hle|Hgt]; [exact Hle|exfalso].
    assert (2 ^ (lq + 51) <= 2 ^ lp) by (apply Z.pow_le_mono_r; lia).
    assert (E : 2 ^ (lq + 51) = 2 ^ Z.succ lq * 2 ^ 50)
      by (rewrite <- Z.pow_add_r by lia; f_equal; lia).
    pose proof (pow2_pos 50 ltac:(lia)). nia. }
  set (k0 := lq + 53 - lp).
  assert (Hk0 : 3 <= k0) by lia.
  assert (He0 : lp - lq - 53 = - k0) by lia.
  rewrite He0.
  assert (Hsn : forall x k, 0 < k -> scaled_num x (- k) = x * 2 ^ k).
  { intros x k Hk. unfold scaled_num. destruct (Z.leb_spec 0 (- k)); [lia|].
    rewrite Z.opp_involutive. reflexivity. }
  assert (Hsd : forall y k, 0 < k -> scaled_den y (- k) = y).
  { intros y k Hk. unfold scaled_den. destruct (Z.leb_spec 0 (- k)); [lia|reflexivity]. }
  rewrite Hsn, Hsd by lia.
  (* the scaled quotient at exponent [-k0] lies in [[2^52, 2^54)] *)
  assert (Hlow : 2 ^ 52 * q < p * 2 ^ k0).
  { assert (E : 2 ^ Z.succ lq * 2 ^ 52 = 2 ^ lp * 2 ^ k0)
      by (rewrite <- !Z.pow_add_r by lia; f_equal; lia).
    pose proof (pow2_pos k0 ltac:(lia)). pose proof (pow2_pos 52 ltac:(lia)).
    nia. }
  assert (Hhigh : p * 2 ^ k0 < 2 ^ 54 * q).
  { assert (E : 2 ^ Z.succ lp * 2 ^ k0 = 2 ^ lq * 2 ^ 54)
      by (rewrite <- !Z.pow_add_r by lia; f_equal; lia).
    pose proof (pow2_pos k0 ltac:(lia)). pose proof (pow2_pos 54 ltac:(lia)).
    nia. }
  destruct (Z.ltb_spec (p * 2 ^ k0 / q) (2 ^ 53)) as [Hlt|Hge].
  - rewrite Hsn, Hsd by lia. rewrite Z.opp_involutive.
    destruct (round_half_even_spec (p * 2 ^ k0) q Hq) as [H1 H2].
    split; [lia|]. split; [exact H1|]. split; [exact H2|lia].
  - replace (- k0 + 1) with (- (k0 - 1)) by lia.
    rewrite Hsn, Hsd by lia. rewrite Z.opp_involutive.
    destruct (round_half_even_spec (p * 2 ^ (k0 - 1)) q Hq) as [H1 H2].
    split; [lia|]. split; [exact H1|]. split; [exact H2|].
    assert (E : 2 ^ k0 = 2 * 2 ^ (k0 - 1))
      by (rewrite <- Z.pow_succ_r by lia; f_equal; lia).
    pose proof (Z.mul_div_le (p * 2 ^ k0) q Hq).
    assert (2 ^ 53 = 2 * 2 ^ 52) by reflexivity. nia.
Qed.

Lemma of_int_small n : n < 2 ^ 53 -> of_int n = (n, 0).
Proof. intros H. unfold of_int. destruct (Z.ltb_spec n (2 ^ 53)); [reflexivity|lia]. Qed.

Lemma int_times_eq n m e :
  n < 2 ^ 53 -> e < 0 ->
  int_times n (m, e) = ftrunc (round_div (n * m) (2 ^ (- e))).
Proof.
  intros Hn He. unfold int_times, fmul, of_dyadic. rewrite of_int_small by exact Hn.
  cbn [fst snd]. destruct (Z.leb_spec 0 (0 + e)); [lia|].
  replace (0 + e) with e by lia. reflexivity.
Qed.

Lemma ftrunc_neg m e : 0 <= m -> e < 0 -> ftrunc (m, e) = m / 2 ^ (- e).
Proof.
  intros Hm He. unfold ftrunc. cbn [fst snd].
  destruct (Z.leb_spec 0 e); [lia|]. apply Z.quot_div_nonneg; [lia|].
  apply pow2_pos. lia.
Qed.


(** [int(S * 0.5)] is [floor(S / 2)] for every size below [2^40]. *)
Lemma int_times_0_5 S : 0 <= S < 2 ^ 40 -> int_times S F0_5 = S / 2.
Proof.
  intros HS. destruct (Z.eq_dec S 0) as [->|HS0]; [vm_compute; reflexivity|].
  unfold F0_5. rewrite int_times_eq by lia. cbn [Z.opp]. rewrite Z.mul_1_r.
  pose proof (round_div_small S (2 ^ 1) ltac:(lia) ltac:(lia) ltac:(lia)) as Hr.
  destruct (round_div S (2 ^ 1)) as [m e].
  destruct Hr as [He [Hfl [[Hlo Hhi] Hbig]]].
  set (K := 2 ^ (- e)) in *.
  assert (HK : 4 <= K).
  { unfold K. replace 4 with (2 ^ 2) by reflexivity. apply Z.pow_le_mono_r; lia. }
  assert (Hm0 : 0 <= m).
  { assert (0 <= S * K / 2 ^ 1) by (apply Z.div_pos; lia). lia. }
  rewrite ftrunc_neg by lia. fold K.
  pose proof (Z.div_mod S 2 ltac:(lia)) as Ha.
  pose proof (Z.mod_pos_bound S 2 ltac:(lia)) as Hr.
  set (a := S / 2) in *. set (r := S mod 2) in *.
  symmetry. apply Z.div_unique with (r := m - K * a); [left|lia].
  split.
  - assert (Hlow : K * a <= S * K / 2 ^ 1).
    { apply Z.div_le_lower_bound; [lia|]. nia. }
    lia.
  - destruct (Z_lt_ge_dec m (K * a + K)) as [H|H]; [lia|exfalso]. nia.
Qed.

End PyFloatFacts.

(** The model against CPython on a few inputs: the first size where
    [int(S * 0.65)] exceeds [floor(0.65 S)], and the resize of a 2105x2526,
    a 4231x4231 and a 2401x1 image. *)
Module FloatTests.
Import PyFloat.
Example t1 : int_times 866076851417403 F0_65 = 562949953421312. Proof. vm_compute. reflexivity. Qed.
Example t2 : ftrunc (fmul (of_int 2105) (int_truediv 2400 2526)) = 1999. Proof. vm_compute. reflexivity. Qed.
Example t3 : ftrunc (fmul (of_int 4231) (int_truediv 2400 4231)) = 2399. Proof. vm_compute. reflexivity. Qed.
Example t4 : int_truediv 2400 2526 = (8557909030632771, -53). Proof. vm_compute. reflexivity. Qed.
Example t5 : ftrunc (fmul (of_int 2526) (int_truediv 2400 2526)) = 2400. Proof. vm_compute. reflexivity. Qed.
Example t6 : int_times 6000 F0_65 = 3900 /\ int_times 6001 F0_5 = 3000. Proof. vm_compute. split; reflexivity. Qed.
Example t7 : Optimize.resize_dims 2401 1 = (2400, 0). Proof. vm_compute. reflexivity. Qed.
End FloatTests.

Module OptimizeFacts.

Import PyStr PyFloat PyFloatFacts Optimize.

(** Symbolic execution of the optimizer: unfold the monad and the Pillow
    model, then case on the innermost pending test. *)
Ltac run_defs :=
  cbv beta iota zeta delta [optimize_image optimize_body get_file_size bind ret raise lw
    image_open cap_oversized resize load convert save close path_exists set_new_size
    set_webp_size with_error with_skipped with_new_size with_webp_size acquire_fd
    release_fd write_file negb orb andb fst snd] in *;
  cbn [files writes read_only open_fds im_w im_h im_mode im_loaded im_decodes im_fp
       sfile original_size new_size webp_size skipped error] in *.

Ltac destruct_inner :=
  match goal with
  | |- context [lookup ?l ?p] => destruct (lookup l p) eqn:?
  | |- context [match ?x with _ => _ end] =>
      lazymatch x with
      | context [match _ with _ => _ end] => fail
      | _ => destruct x eqn:?
      end
  end.

Ltac run_all := run_defs; repeat (destruct_inner; run_defs).

(** The write log only grows: a log equal to itself plus a write is absurd. *)
Ltac no_growth :=
  match goal with
  | H : ?l = writes ?w |- _ =>
      apply (f_equal (@List.length _)) in H; rewrite ?length_app in H;
      cbn [List.length] in H; exfalso; lia
  end.

Section Oracles.

Variable enc : string -> image -> Z -> Z.
Variable can : string -> string -> bool.

(** Every result names its file, and a skipped result reports no change. *)
Lemma optimize_image_shape fp jq wq dry w :
  match optimize_image enc can fp jq wq dry w with
  | (_, inr st) =>
      sfile st = path_name fp /\
      (skipped st = true -> new_size st = original_size st /\ webp_size st = 0)
  | (_, inl _) => True
  end.
Proof.
  destruct dry; run_all; cbn; try (split; [reflexivity|]); intuition congruence.
Qed.

(** A dry run on a file of at least 5 KiB writes nothing; its result is
    the estimate of the file's kind for [new_size] (or the original size
    when an exception came first), and the WebP estimate unless a sibling
    exists. *)
Lemma dry_run_result fp jq wq w f :
  lookup (files w) fp = Some f -> SKIP_IF_SMALLER_THAN <= fsize f ->
  let S := fsize f in
  let ext := lower (psuffix fp) in
  let est := if mem ext JPEG_EXTS then int_times S F0_65
             else if String.eqb ext ".png" then int_times S F0_85 else S in
  let webp_exists := match lookup (files w) (with_suffix fp ".webp") with
                     | Some _ => true | None => false end in
  let '(w', r) := optimize_image enc can fp jq wq true w in
  files w' = files w /\ writes w' = writes w /\
  exists st, r = inr st /\ sfile st = path_name fp /\ original_size st = S /\
    skipped st = false /\
    (new_size st = S \/ new_size st = est) /\
    (error st = None ->
       new_size st = est /\ webp_size st = if webp_exists then 0 else int_times S F0_5).
Proof.
  intros Hl HS S ext est webp_exists. subst S ext est webp_exists.
  run_defs. rewrite Hl.
  destruct (Z.ltb_spec (fsize f) SKIP_IF_SMALLER_THAN); [lia|].
  repeat (destruct_inner; run_defs);
  (split; [reflexivity|]); (split; [reflexivity|]);
  (eexists; split; [reflexivity|]); cbn;
  repeat split; try tauto; try congruence.
Qed.


(** Outside a dry run, a file whose processing raised before anything was
    written keeps its original size and reports no WebP variant. *)
Lemma wet_no_write fp jq wq w :
  let '(w', r) := optimize_image enc can fp jq wq false w in
  forall st, r = inr st -> error st <> None -> writes w' = writes w ->
  new_size st = original_size st /\ webp_size st = 0.
Proof.
  run_all; intros st Hst Her Hw; (discriminate Hst || injection Hst as <-);
    cbn [error new_size webp_size original_size writes] in *;
    try tauto; try congruence; try no_growth.
Qed.

(** The batch loop appends one result per file, in order, and adds each
    result's sizes to the running totals. *)
Lemma batch_loop_spec fs jq wq dry : forall res0 to0 tn0 tw0 w,
  match batch_loop enc can fs jq wq dry res0 to0 tn0 tw0 w with
  | (_, inr (res, to, tn, tw)) =>
      exists nw, res = res0 ++ nw /\ map sfile nw = map path_name fs /\
        to = to0 + fold_right Z.add 0 (map original_size nw) /\
        tn = tn0 + fold_right Z.add 0 (map new_size nw) /\
        tw = tw0 + fold_right Z.add 0 (map webp_size nw) /\
        (forall st, In st nw -> skipped st = true ->
                    new_size st = original_size st /\ webp_size st = 0)
  | (_, inl _) => True
  end.
Proof.
  induction fs as [|f fs IH]; intros res0 to0 tn0 tw0 w.
  - cbn. exists []. rewrite app_nil_r. cbn. repeat split; try lia; try tauto.
  - cbn [batch_loop]. unfold bind.
    pose proof (optimize_image_shape f jq wq dry w) as Hsh.
    destruct (optimize_image enc can f jq wq dry w) as [w1 [e|st]]; [exact I|].
    destruct Hsh as [Hname Hskip].
    specialize (IH (res0 ++ [st]) (to0 + original_size st) (tn0 + new_size st)
                  (tw0 + webp_size st) w1).
    destruct (batch_loop enc can fs jq wq dry (res0 ++ [st]) (to0 + original_size st)
                (tn0 + new_size st) (tw0 + webp_size st) w1)
      as [w2 [e|[[[res to] tn] tw]]]; [exact I|].
    destruct IH as [nw [Hres [Hnames [Hto [Htn [Htw Hsk]]]]]].
    exists (st :: nw). rewrite <- app_assoc in Hres. cbn.
    split; [exact Hres|]. split; [rewrite Hname, Hnames; reflexivity|].
    split; [lia|]. split; [lia|]. split; [lia|].
    intros st' [<-|Hin]; [exact Hskip|exact (Hsk st' Hin)].
Qed.

(** Outside a dry run, a file whose pixels do not decode raises inside the
    [try] after [Image.open] took its file handle, and nothing gives the
    handle back. *)
Lemma wet_decode_failure fp jq wq w f d :
  lookup (files w) fp = Some f -> SKIP_IF_SMALLER_THAN <= fsize f ->
  fimage f = Some d -> decodes d = false ->
  let '(w', r) := optimize_image enc can fp jq wq false w in
  open_fds w' = fp :: open_fds w /\
  exists st, r = inr st /\ error st = Some (str_exn ImageDecodeError).
Proof.
  intros Hl HS Hf Hd. run_defs. rewrite Hl.
  destruct (Z.ltb_spec (fsize f) SKIP_IF_SMALLER_THAN); [lia|].
  run_defs. rewrite Hl. run_defs. rewrite Hf. run_defs. rewrite ?Hd.
  repeat (destruct_inner; run_defs); try congruence;
  (split; [reflexivity|]); eexists; split; reflexivity.
Qed.

End Oracles.

(** [0 / q] rounds to a zero significand, and [int(0 * c)] is [0]. *)
Lemma round_div_zero q : 0 < q -> fst (round_div 0 q) = 0.
Proof.
  intros Hq. unfold round_div. cbn [fst].
  set (e := if _ <? _ then _ else _).
  assert (Hs : scaled_num 0 e = 0).
  { unfold scaled_num. destruct (0 <=? e); reflexivity. }
  assert (Hd : 0 < scaled_den q e).
  { unfold scaled_den. destruct (Z.leb_spec 0 e); [|exact Hq].
    pose proof (pow2_pos e H). lia. }
  rewrite Hs. unfold round_half_even. rewrite Z.div_0_l, Z.mod_0_l by lia.
  destruct (Z.ltb_spec (2 * 0) (scaled_den q e)); [reflexivity|lia].
Qed.

Lemma int_times_zero c : int_times 0 c = 0.
Proof.
  unfold int_times. rewrite of_int_small by lia. unfold fmul, of_dyadic. cbn [fst snd].
  rewrite Z.mul_0_l.
  assert (Hz : forall q, 0 < q -> ftrunc (round_div 0 q) = 0).
  { intros q Hq. pose proof (round_div_zero q Hq) as H0.
    destruct (round_div 0 q) as [m e]. cbn [fst] in H0. subst m.
    unfold ftrunc. cbn [fst snd]. destruct (0 <=? e); reflexivity. }
  destruct (Z.leb_spec 0 (0 + snd c)).
  - rewrite ?Z.mul_0_l. apply Hz. lia.
  - apply Hz. apply pow2_pos. lia.
Qed.

(** [int(x * (2400 / M))] for [0 <= x <= M] and [2400 < M < 2^31]: the two
    roundings move the product by far less than [1/M], so the result is the
    floor of [2400 x / M], or one less when that quotient is an integer. *)
Lemma scale_dim x M :
  0 <= x <= M -> MAX_DIMENSION < M < 2 ^ 31 ->
  let n := int_times x (int_truediv MAX_DIMENSION M) in
  n * M <= MAX_DIMENSION * x <= (n + 1) * M.
Proof.
  intros Hx HM. cbv zeta. unfold MAX_DIMENSION in *.
  destruct (Z.eq_dec x 0) as [->|Hx0]; [rewrite int_times_zero; lia|].
  unfold int_truediv.
  pose proof (round_div_small 2400 M ltac:(lia) ltac:(lia) ltac:(lia)) as Hr1.
  destruct (round_div 2400 M) as [r e1].
  destruct Hr1 as [He1 [_ [[Hlo1 Hhi1] Hbig1]]].
  rewrite int_times_eq by lia.
  set (K1 := 2 ^ (- e1)) in *.
  assert (HK1 : 0 < K1) by (apply pow2_pos; lia).
  assert (HMK1 : M <= K1) by lia.
  assert (Hr : 1 <= r <= K1) by nia.
  assert (Hxr : x * r <= 2401 * K1) by nia.
  pose proof (round_div_small (x * r) K1 ltac:(nia) HK1 ltac:(nia)) as Hr2.
  destruct (round_div (x * r) K1) as [m e2].
  destruct Hr2 as [He2 [Hfl2 [[Hlo2 Hhi2] Hbig2]]].
  set (K2 := 2 ^ (- e2)) in *.
  assert (HK2 : 0 < K2) by (apply pow2_pos; lia).
  assert (Hm0 : 0 <= m).
  { assert (0 <= x * r * K2 / K1) by (apply Z.div_pos; nia). lia. }
  rewrite ftrunc_neg by lia. fold K2.
  pose proof (Z.div_mod m K2 ltac:(lia)) as Hq.
  pose proof (Z.mod_pos_bound m K2 HK2) as Hmod.
  set (n := m / K2) in *. set (rm := m mod K2) in *.
  (* [x M < K1] and [M < K2]: the error terms are below [K1 K2] *)
  assert (HxM : x * M < K1).
  { assert (x * M <= M * M) by nia.
    assert (M * M < 2 ^ 31 * M) by nia. lia. }
  assert (HMK2 : M < K2).
  { assert (2 ^ 52 * K1 <= 2401 * K1 * K2) by nia.
    assert (2 ^ 52 <= 2401 * K2) by nia. lia. }
  assert (Hcore : x * K2 * M + K1 * M < 2 * K1 * K2) by nia.
  split.
  - destruct (Z_le_gt_dec (n * M) (2400 * x)) as [H|H]; [exact H|exfalso].
    assert (A1 : 2 * K1 * M * (K2 * n) <= 2 * K1 * M * m) by nia.
    assert (A2 : 2 * K1 * M * m <= M * K1 + 2 * x * K2 * (r * M)) by nia.
    assert (A3 : 2 * x * K2 * (r * M) <= x * K2 * (4800 * K1 + M)) by nia.
    assert (A4 : 2 * K1 * K2 * (2400 * x + 1) <= 2 * K1 * K2 * (n * M)) by nia.
    nia.
  - destruct (Z_le_gt_dec (2400 * x) ((n + 1) * M)) as [H|H]; [exact H|exfalso].
    assert (A1 : 2 * K1 * M * m < 2 * K1 * M * (K2 * (n + 1))) by nia.
    assert (A2 : M * (2 * x * r * K2 - K1) <= 2 * K1 * M * m) by nia.
    assert (A3 : x * K2 * (4800 * K1 - M) <= 2 * x * K2 * (r * M)) by nia.
    assert (A4 : 2 * K1 * K2 * ((n + 1) * M) <= 2 * K1 * K2 * (2400 * x - 1)) by nia.
    nia.
Qed.

End OptimizeFacts.

Module OptimizeClaims.

Import PyStr PyFloat PyFloatFacts Optimize OptimizeExamples OptimizeFacts.

(** C3: a file below 5 KiB is skipped: [optimize_image] returns at line 68
    with [skipped = true], the new size equal to the original size and no
    WebP size, and leaves the file system, the write log and the open
    handles exactly as they were (no byte written, no sibling created). *)
Theorem optimize_skips_small enc can fp jq wq dry w f :
  lookup (files w) fp = Some f -> fsize f < SKIP_IF_SMALLER_THAN ->
  optimize_image enc can fp jq wq dry w =
    (w, inr (mkStats (path_name fp) (fsize f) (fsize f) 0 true None)).
Proof.
  intros Hl Hs. unfold optimize_image, get_file_size. rewrite Hl.
  destruct (Z.ltb_spec (fsize f) SKIP_IF_SMALLER_THAN); [reflexivity|lia].
Qed.

Lemma optimize_skips_small_witness :
  lookup (files site) icon_jpg = Some icon_file /\
  fsize icon_file < SKIP_IF_SMALLER_THAN /\
  optimize_image sample_encoded_size pillow_can_encode icon_jpg 82 80 false site =
    (site, inr (mkStats (path_name icon_jpg) (fsize icon_file) (fsize icon_file) 0 true None)).
Proof.
  split; [reflexivity|]. split; [vm_compute; reflexivity|].
  apply optimize_skips_small; [reflexivity|vm_compute; reflexivity].
Defined.




(** C5, as stated: every dry run on a file of at least 5 KiB that records no
    exception reports [floor(0.5 S)] as its WebP size.  Refuted by
    [lake.jpg], whose sibling [lake.webp] exists: lines 98-106 are skipped
    and [webp_size] stays [0]. *)
Lemma dry_run_webp_counterexample :
  ~ (forall enc can fp jq wq w f,
       lookup (files w) fp = Some f -> SKIP_IF_SMALLER_THAN <= fsize f ->
       match optimize_image enc can fp jq wq true w with
       | (_, inr st) => error st = None -> webp_size st = fsize f / 2
       | (_, inl _) => True
       end).
Proof.
  intros H.
  specialize (H sample_encoded_size pillow_can_encode lake_jpg 82 80 site lake_file
                eq_refl ltac:(vm_compute; discriminate)).
  vm_compute in H. specialize (H eq_refl). discriminate H.
Qed.

(** C5 (amended): a dry run on a file of size [S], with [5120 <= S < 2^40],
    writes nothing, and when it records no exception its WebP size is
    [floor(0.5 S)] if the [.webp] sibling does not exist and [0] if it
    does. *)
Theorem dry_run_webp_estimate enc can fp jq wq w f :
  lookup (files w) fp = Some f -> SKIP_IF_SMALLER_THAN <= fsize f < 2 ^ 40 ->
  let '(w', r) := optimize_image enc can fp jq wq true w in
  files w' = files w /\ writes w' = writes w /\
  exists st, r = inr st /\
    (error st = None ->
       webp_size st = match lookup (files w) (with_suffix fp ".webp") with
                      | Some _ => 0
                      | None => fsize f / 2
                      end).
Proof.
  intros Hl HS.
  pose proof (dry_run_result enc can fp jq wq w f Hl ltac:(lia)) as H. cbv zeta in H.
  rewrite int_times_0_5 in H by (unfold SKIP_IF_SMALLER_THAN in HS; lia).
  destruct (optimize_image enc can fp jq wq true w) as [w' r].
  destruct H as [Hf [Hw [st [Hr [_ [_ [_ [_ He]]]]]]]].
  split; [exact Hf|]. split; [exact Hw|]. exists st. split; [exact Hr|].
  intros E. rewrite (proj2 (He E)).
  destruct (lookup (files w) (with_suffix fp ".webp")); reflexivity.
Qed.

Lemma dry_run_webp_estimate_witness :
  lookup (files site) deck_jpg = Some deck_file /\
  SKIP_IF_SMALLER_THAN <= fsize deck_file < 2 ^ 40 /\
  let '(w', r) := optimize_image sample_encoded_size pillow_can_encode deck_jpg 82 80 true site in
  files w' = files site /\ writes w' = writes site /\
  exists st, r = inr st /\
    (error st = None ->
       webp_size st = match lookup (files site) (with_suffix deck_jpg ".webp") with
                      | Some _ => 0
                      | None => fsize deck_file / 2
                      end).
Proof.
  split; [reflexivity|]. split; [vm_compute; split; [discriminate|reflexivity]|].
  apply dry_run_webp_estimate; [reflexivity|vm_compute; split; [discriminate|reflexivity]].
Defined.

(** C6: line 76 means to scale the longer side to exactly 2400 pixels,
    but [int(x * (2400 / M))] truncates a double product that can fall
    just below the exact quotient.  A 4231x4231 image comes out as
    2399x2399, and a 2105x2526 image as 1999x2400 instead of 2000x2400. *)
Theorem cap_oversized_short_side p w :
  cap_oversized (mkImage 4231 4231 "RGB" false true (Some p)) w =
    (release_fd w p, inr (mkImage 2399 2399 "RGB" true true None)) /\
  cap_oversized (mkImage 2105 2526 "RGB" false true (Some p)) w =
    (release_fd w p, inr (mkImage 1999 2400 "RGB" true true None)).
Proof.
  split; unfold cap_oversized, resize, bind, load, ret; cbn [im_w im_h im_mode im_loaded im_decodes im_fp];
    vm_compute; reflexivity.
Qed.

(** An image whose longer side [M] is at most 2400 is never resized; a
    larger one (with [M < 2^31]) that is resized has both sides at most
    2400, and each side [n] of the result and [x] of the input satisfy
    [n M <= 2400 x <= (n + 1) M]: [n] is the floor of the scaled side, or
    one less when the scaled side is an integer.  Only an oversized image
    can make the cap raise. *)
Theorem cap_oversized_bounds img w :
  0 <= im_w img -> 0 <= im_h img -> Z.max (im_w img) (im_h img) < 2 ^ 31 ->
  let M := Z.max (im_w img) (im_h img) in
  match cap_oversized img w with
  | (_, inr img') =>
      if M <=? MAX_DIMENSION then img' = img
      else Z.max (im_w img') (im_h img') <= MAX_DIMENSION /\
           im_w img' * M <= MAX_DIMENSION * im_w img <= (im_w img' + 1) * M /\
           im_h img' * M <= MAX_DIMENSION * im_h img <= (im_h img' + 1) * M
  | (_, inl _) => MAX_DIMENSION < M
  end.
Proof.
  intros Hw Hh HM M. unfold cap_oversized. fold M.
  destruct (Z.ltb_spec MAX_DIMENSION M) as [Hbig|Hsmall].
  - unfold resize_dims. fold M.
    change (ftrunc (fmul (of_int (im_w img)) (int_truediv MAX_DIMENSION M)))
      with (int_times (im_w img) (int_truediv MAX_DIMENSION M)).
    change (ftrunc (fmul (of_int (im_h img)) (int_truediv MAX_DIMENSION M)))
      with (int_times (im_h img) (int_truediv MAX_DIMENSION M)).
    pose proof (scale_dim (im_w img) M ltac:(unfold M; lia) ltac:(unfold M in *; lia)) as Sw.
    pose proof (scale_dim (im_h img) M ltac:(unfold M; lia) ltac:(unfold M in *; lia)) as Sh.
    cbv zeta in Sw, Sh.
    set (nw := int_times (im_w img) (int_truediv MAX_DIMENSION M)) in *.
    set (nh := int_times (im_h img) (int_truediv MAX_DIMENSION M)) in *.
    unfold resize, bind, load, ret, raise.
    destruct (im_loaded img); [|destruct (im_decodes img)];
      destruct ((nw <? 1) || (nh <? 1)); cbn [im_w im_h]; try exact Hbig.
    all: destruct (Z.leb_spec M MAX_DIMENSION); [lia|].
    all: assert (HM0 : 0 < M) by (unfold MAX_DIMENSION in Hbig; lia).
    all: unfold MAX_DIMENSION in *; split; [|split; assumption].
    all: assert (nw <= 2400) by (unfold M in *; nia).
    all: assert (nh <= 2400) by (unfold M in *; nia).
    all: lia.
  - unfold ret. destruct (Z.leb_spec M MAX_DIMENSION); [reflexivity|lia].
Qed.

Lemma cap_oversized_bounds_witness :
  0 <= 4000 /\ 0 <= 3000 /\ Z.max 4000 3000 < 2 ^ 31 /\
  let img := mkImage 4000 3000 "RGB" false true (Some deck_jpg) in
  let M := Z.max (im_w img) (im_h img) in
  match cap_oversized img site with
  | (_, inr img') =>
      if M <=? MAX_DIMENSION then img' = img
      else Z.max (im_w img') (im_h img') <= MAX_DIMENSION /\
           im_w img' * M <= MAX_DIMENSION * im_w img <= (im_w img' + 1) * M /\
           im_h img' * M <= MAX_DIMENSION * im_h img <= (im_h img' + 1) * M
  | (_, inl _) => MAX_DIMENSION < M
  end.
Proof.
  split; [lia|]. split; [lia|]. split; [vm_compute; reflexivity|].
  exact (cap_oversized_bounds (mkImage 4000 3000 "RGB" false true (Some deck_jpg)) site
           ltac:(cbn; lia) ltac:(cbn; lia) ltac:(vm_compute; reflexivity)).
Defined.

(** C7: a file that is missing when the batch reaches it (a name given on
    the command line, or a dangling link in [public/images/]) makes
    [get_file_size] at line 55, outside the [try], raise
    [FileNotFoundError]: the whole batch stops with it, and none of the
    files after it is processed. *)
Theorem batch_aborts_on_missing_file enc can f fs jq wq dry w :
  lookup (files w) f = None ->
  run_batch enc can (f :: fs) jq wq dry w = (w, inl (FileNotFoundError f)).
Proof.
  intros Hl. unfold run_batch. cbn [batch_loop]. unfold bind, optimize_image, get_file_size.
  rewrite Hl. reflexivity.
Qed.

Lemma batch_aborts_on_missing_file_witness :
  lookup (files site) missing_jpg = None /\
  run_batch sample_encoded_size pillow_can_encode [missing_jpg; lake_jpg] 82 80 false site =
    (site, inl (FileNotFoundError missing_jpg)).
Proof.
  split; [reflexivity|]. apply batch_aborts_on_missing_file. reflexivity.
Defined.

(** C8: outside a dry run, a file of at least 5 KiB whose header Pillow
    reads but whose pixels do not decode raises in the [try] after
    [Image.open] took its handle; [img.close()] at line 108 is skipped, the
    error is recorded, and the handle is still open when the next file is
    considered. *)
Theorem optimize_image_keeps_handle enc can fp jq wq w f d :
  lookup (files w) fp = Some f -> SKIP_IF_SMALLER_THAN <= fsize f ->
  fimage f = Some d -> decodes d = false ->
  let '(w', r) := optimize_image enc can fp jq wq false w in
  open_fds w' = fp :: open_fds w /\
  exists st, r = inr st /\ error st = Some (str_exn ImageDecodeError).
Proof.
  intros Hl HS Hf Hd. exact (wet_decode_failure enc can fp jq wq w f d Hl HS Hf Hd).
Qed.

Lemma optimize_image_keeps_handle_witness :
  lookup (files site) truncated_jpg = Some truncated_file /\
  SKIP_IF_SMALLER_THAN <= fsize truncated_file /\
  fimage truncated_file = Some (mkImageData 100 100 "RGB" false) /\
  decodes (mkImageData 100 100 "RGB" false) = false /\
  let '(w', r) :=
    optimize_image sample_encoded_size pillow_can_encode truncated_jpg 82 80 false site in
  open_fds w' = truncated_jpg :: open_fds site /\
  exists st, r = inr st /\ error st = Some (str_exn ImageDecodeError).
Proof.
  split; [reflexivity|]. split; [vm_compute; discriminate|].
  split; [reflexivity|]. split; [reflexivity|].
  apply (optimize_image_keeps_handle _ _ _ _ _ _ truncated_file (mkImageData 100 100 "RGB" false)); [reflexivity|vm_compute; discriminate|reflexivity|reflexivity].
Defined.

(** C10, as stated: a file that recorded an exception before any save
    reports its original size as its new size.  Refuted by a dry run on
    [print.jpg], a truncated CMYK JPEG: line 88 sets the 65% estimate, then
    the conversion at line 100 fails to decode; nothing is written, yet
    [new_size] is [3900], not [6000]. *)
Lemma error_keeps_size_counterexample :
  ~ (forall enc can fp jq wq dry w,
       let '(w', r) := optimize_image enc can fp jq wq dry w in
       forall st, r = inr st -> error st <> None -> writes w' = writes w ->
       new_size st = original_size st).
Proof.
  intros H.
  specialize (H sample_encoded_size pillow_can_encode print_jpg 82 80 true site).
  vm_compute in H. specialize (H _ eq_refl ltac:(discriminate) eq_refl). discriminate H.
Qed.

(** C10 (amended): a batch that completes returns one result per input
    file, in input order, and totals that are the sums of the results'
    original, new and WebP sizes; a skipped result reports its original
    size as its new size and no WebP size.  Outside a dry run, a file whose
    processing raised before anything was written does the same. *)
Theorem run_batch_totals enc can fs jq wq dry w :
  match run_batch enc can fs jq wq dry w with
  | (_, inr (res, to, tn, tw)) =>
      map sfile res = map path_name fs /\
      to = fold_right Z.add 0 (map original_size res) /\
      tn = fold_right Z.add 0 (map new_size res) /\
      tw = fold_right Z.add 0 (map webp_size res) /\
      (forall st, In st res -> skipped st = true ->
                  new_size st = original_size st /\ webp_size st = 0)
  | (_, inl _) => True
  end /\
  (dry = false -> forall fp w0,
     let '(w1, r) := optimize_image enc can fp jq wq dry w0 in
     forall st, r = inr st -> error st <> None -> writes w1 = writes w0 ->
     new_size st = original_size st /\ webp_size st = 0).
Proof.
  split.
  - pose proof (batch_loop_spec enc can fs jq wq dry [] 0 0 0 w) as H.
    unfold run_batch.
    destruct (batch_loop enc can fs jq wq dry [] 0 0 0 w) as [w' [e|[[[res to] tn] tw]]];
      [exact I|].
    destruct H as [nw [Hres [Hn [Ho [Hnw [Hw Hs]]]]]]. cbn in Hres. subst res.
    split; [exact Hn|]. split; [lia|]. split; [lia|]. split; [lia|]. exact Hs.
  - intros -> fp w0. exact (wet_no_write enc can fp jq wq w0).
Qed.

Lemma run_batch_totals_witness :
  match run_batch sample_encoded_size pillow_can_encode [icon_jpg; lake_jpg; deck_jpg]
          82 80 false site with
  | (_, inr (res, to, tn, tw)) =>
      map sfile res = map path_name [icon_jpg; lake_jpg; deck_jpg] /\
      to = fold_right Z.add 0 (map original_size res) /\
      tn = fold_right Z.add 0 (map new_size res) /\
      tw = fold_right Z.add 0 (map webp_size res) /\
      (forall st, In st res -> skipped st = true ->
                  new_size st = original_size st /\ webp_size st = 0)
  | (_, inl _) => True
  end /\
  (false = false -> forall fp w0,
     let '(w1, r) := optimize_image sample_encoded_size pillow_can_encode fp 82 80 false w0 in
     forall st, r = inr st -> error st <> None -> writes w1 = writes w0 ->
     new_size st = original_size st /\ webp_size st = 0).
Proof.
  exact (run_batch_totals sample_encoded_size pillow_can_encode [icon_jpg; lake_jpg; deck_jpg]
           82 80 false site).
Defined.

End OptimizeClaims.

Module AuditExtras.

Import PyStr PyStrFacts Audit AuditFacts AuditClaims.

Lemma categorize_perm py_lower pub refs imgs : forall a b c,
  let '(a', b', c') := fold_left (categorize_step py_lower pub refs) imgs (a, b, c) in
  Permutation (a' ++ b' ++ c') (a ++ b ++ c ++ imgs).
Proof.
  induction imgs as [|x xs IH]; intros a b c; cbn [fold_left].
  - rewrite app_nil_r. reflexivity.
  - rewrite categorize_step_eq.
    destruct (classify py_lower pub refs x);
      match goal with
      | |- context [fold_left _ xs (?a1, ?b1, ?c1)] =>
          specialize (IH a1 b1 c1);
          destruct (fold_left (categorize_step py_lower pub refs) xs (a1, b1, c1))
            as [[a' b'] c']
      end;
      rewrite IH; rewrite <- ?app_assoc; cbn [app].
    + apply Permutation_app_head. rewrite (app_assoc b c (x :: xs)), (app_assoc b c xs).
      apply Permutation_middle.
    + apply Permutation_app_head. apply Permutation_app_head. apply Permutation_middle.
    + reflexivity.
Qed.

(** Every root image lands in exactly one of the three buckets, once, in
    the order of the listing within each bucket's share: the buckets
    together are a permutation of [root_images].  The report's counts
    therefore add up to the number of root images, and clean mode moves
    exactly [len(has_public_copy) + len(unreferenced)] files (lines 83-85, 94). *)
Theorem audit_buckets_partition py_lower clean root pub refs r :
  audit py_lower clean root pub refs = Some r ->
  Permutation (has_public_copy r ++ referenced_but_missing r ++ unreferenced r)
              (root_images py_lower root) /\
  List.length (moved r) =
    (if clean then List.length (has_public_copy r) + List.length (unreferenced r) else 0)%nat.
Proof.
  intros Hr. split.
  - apply audit_buckets_eq in Hr. unfold categorize in Hr.
    pose proof (categorize_perm py_lower (public_set py_lower pub) refs
                  (root_images py_lower root) [] [] []) as Hp.
    rewrite Hr in Hp. exact Hp.
  - destruct clean.
    + destruct (audit_clean_eq _ _ _ _ _ Hr) as [a [b [c [root1 [_ [_ ->]]]]]].
      cbn. apply length_app.
    + unfold audit in Hr.
      destruct (categorize py_lower (public_set py_lower pub) refs (root_images py_lower root))
        as [[a b] c].
      injection Hr as <-. reflexivity.
Qed.

Lemma same_name_image py_lower e f :
  ename e = ename f -> is_image py_lower e = is_image py_lower f.
Proof. intros H. unfold is_image. rewrite H. reflexivity. Qed.

(** After a successful clean run, an entry of [images/] other than
    [_archive] is present exactly when it was present before and was not
    moved: non-image files, subdirectories and the images of bucket B all
    stay as they were, and nothing else appears. *)
Theorem audit_clean_root_after py_lower root pub refs r :
  audit py_lower true root pub refs = Some r ->
  forall e, ename e <> ARCHIVE ->
  (In e (root_after r) <-> In e root /\ ~ In e (moved r)).
Proof.
  intros Hr e Ha.
  destruct (audit_clean_eq _ _ _ _ _ Hr) as [a [b [c [root1 [Hcat [Hmk ->]]]]]].
  cbn [root_after moved].
  destruct (mkdir_archive_spec _ _ Hmk) as [_ [Hsub Hback]].
  split.
  - intros He. split.
    + apply Hback; [|exact Ha]. exact (fold_moves_inv _ _ _ He Ha).
    + intros Hm. exact (fold_moves_gone (a ++ c) root1 e Hm e He eq_refl).
  - intros [He Hm]. apply fold_moves_keep; [apply Hsub, He|exact Ha|].
    intros f Hf Heq. apply Hm.
    destruct (categorized_In _ _ _ _ _ _ _ Hcat) as [HA [_ HC]].
    assert (Hfi : In f (root_images py_lower root))
      by (apply in_app_or in Hf as [Hf|Hf]; [apply HA in Hf | apply HC in Hf]; apply Hf).
    assert (Hei : In e (root_images py_lower root)).
    { apply filter_In in Hfi as [_ Himg]. apply filter_In. split; [exact He|].
      rewrite (same_name_image py_lower e f Heq). exact Himg. }
    pose proof (classify_name py_lower (public_set py_lower pub) refs e f Heq) as Hcl.
    apply in_app_or in Hf as [Hf|Hf]; apply in_or_app;
      [left; apply HA; apply HA in Hf | right; apply HC; apply HC in Hf];
      split; [exact Hei | | exact Hei | ]; rewrite Hcl; apply Hf.
Qed.

Lemma fold_moves_contents l st cs :
  find is_archive st = Some (mkEntry ARCHIVE (NDir cs)) ->
  (forall f, In f l -> ename f <> ARCHIVE) ->
  exists cs', find is_archive (fold_left move_to_archive l st) = Some (mkEntry ARCHIVE (NDir cs'))
    /\ (forall x, In x cs' <-> In x cs \/ exists f, In f l /\ ename f = x).
Proof.
  revert st cs. induction l as [|f l IH]; intros st cs Hf Hl; cbn [fold_left].
  - exists cs. split; [exact Hf|]. intros x. split; [tauto|]. intros [H|[g [[] _]]]. exact H.
  - pose proof (move_find st f cs Hf (Hl f (or_introl eq_refl))) as Hm.
    destruct (IH _ _ Hm (fun g Hg => Hl g (or_intror Hg))) as [cs' [Hc' Hin]].
    exists cs'. split; [exact Hc'|]. intros x. rewrite Hin. cbn [In].
    destruct (string_dec (ename f) x) as [<-|Hne].
    + split; [intros _; right; exists f; auto | intros _; left; left; reflexivity].
    + split.
      * intros [[H|H]|[g [Hg Hgx]]]; [congruence| |right; exists g; auto].
        left. apply in_remove in H. apply H.
      * intros [H|[g [[<-|Hg] Hgx]]]; [|congruence|right; exists g; auto].
        left. right. apply in_in_remove; [congruence|exact H].
Qed.

Lemma mkdir_archive_contents root root1 :
  mkdir_archive root = Some root1 ->
  find is_archive root1 = Some (mkEntry ARCHIVE (NDir (archive_contents root))).
Proof.
  unfold mkdir_archive, archive_contents.
  destruct (find is_archive root) as [[n [|cs]]|] eqn:Hf; intros H; try discriminate;
    injection H as <-.
  - pose proof (find_some _ _ Hf) as [_ Hn]. unfold is_archive in Hn; cbn in Hn.
    apply String.eqb_eq in Hn. subst n. exact Hf.
  - rewrite find_app, Hf. reflexivity.
Qed.

(** After a successful clean run, [_archive/] holds exactly the names it
    held before (none when it did not exist) together with the names of the
    moved files: an archived file of the same name is replaced, never
    dropped otherwise. *)
Theorem audit_archive_contents py_lower root pub refs r :
  py_lower EmptyString = EmptyString ->
  audit py_lower true root pub refs = Some r ->
  forall x, In x (archive_contents (root_after r)) <->
    In x (archive_contents root) \/ exists f, In f (moved r) /\ ename f = x.
Proof.
  intros Hl Hr x.
  destruct (audit_clean_eq _ _ _ _ _ Hr) as [a [b [c [root1 [Hcat [Hmk ->]]]]]].
  cbn [root_after moved].
  pose proof (moved_names_not_archive _ _ _ _ _ _ _ Hl Hcat) as Hmv.
  destruct (fold_moves_contents (a ++ c) root1 _ (mkdir_archive_contents _ _ Hmk)
              (fun g Hg => proj2 (Hmv g Hg))) as [cs' [Hf' Hin]].
  unfold archive_contents at 1. rewrite Hf'. apply Hin.
Qed.

Lemma audit_buckets_partition_witness :
  let root := [mkEntry "a.JPG" NFile; mkEntry "b.png" NFile; mkEntry "c.gif" NFile;
               mkEntry "notes.txt" NFile]%string in
  let r := mkRun [mkEntry "a.JPG" NFile] [mkEntry "b.png" NFile] [mkEntry "c.gif" NFile]
             [mkEntry "a.JPG" NFile; mkEntry "c.gif" NFile]
             [mkEntry "b.png" NFile; mkEntry "notes.txt" NFile;
              mkEntry ARCHIVE (NDir ["c.gif"; "a.JPG"])]%string in
  audit lower true root ["A.jpg"%string] ["b.png"%string] = Some r /\
  (Permutation (has_public_copy r ++ referenced_but_missing r ++ unreferenced r)
               (root_images lower root) /\
   List.length (moved r) =
     (if true then List.length (has_public_copy r) + List.length (unreferenced r) else 0)%nat).
Proof.
  intros root r.
  assert (H1 : audit lower true root ["A.jpg"%string] ["b.png"%string] = Some r)
    by reflexivity.
  split; [exact H1|].
  exact (audit_buckets_partition lower true root _ _ r H1).
Defined.

Lemma audit_clean_root_after_witness :
  let root := [mkEntry "a.JPG" NFile; mkEntry "b.png" NFile; mkEntry "c.gif" NFile;
               mkEntry "notes.txt" NFile; mkEntry "old" (NDir ["x.jpg"])]%string in
  exists r, audit lower true root ["A.jpg"%string] ["b.png"%string] = Some r /\
  (forall e, ename e <> ARCHIVE ->
     (In e (root_after r) <-> In e root /\ ~ In e (moved r))).
Proof.
  intros root. eexists.
  assert (H1 : audit lower true root ["A.jpg"%string] ["b.png"%string] =
               Some (match audit lower true root ["A.jpg"%string] ["b.png"%string] with
                     | Some r => r | None => mkRun [] [] [] [] [] end)) by reflexivity.
  split; [exact H1|].
  exact (audit_clean_root_after lower root _ _ _ H1).
Defined.

Lemma audit_archive_contents_witness :
  let root := [mkEntry "a.JPG" NFile; mkEntry "c.gif" NFile;
               mkEntry ARCHIVE (NDir ["a.JPG"; "old.png"])]%string in
  exists r, lower EmptyString = EmptyString /\
  audit lower true root ["A.jpg"%string] [] = Some r /\
  (forall x, In x (archive_contents (root_after r)) <->
     In x (archive_contents root) \/ exists f, In f (moved r) /\ ename f = x).
Proof.
  intros root. eexists.
  assert (H0 : lower EmptyString = EmptyString) by reflexivity.
  assert (H1 : audit lower true root ["A.jpg"%string] [] =
               Some (match audit lower true root ["A.jpg"%string] [] with
                     | Some r => r | None => mkRun [] [] [] [] [] end)) by reflexivity.
  split; [exact H0|]. split; [exact H1|].
  exact (audit_archive_contents lower root _ _ _ H0 H1).
Defined.

End AuditExtras.

Module HtmlRefsFacts.

Import Audit.

Lemma string_app_assoc a b c : ((a ++ b) ++ c)%string = (a ++ b ++ c)%string.
Proof. induction a as [|x a IH]; cbn; [reflexivity|]. f_equal. exact IH. Qed.

Lemma string_length_app a b : String.length (a ++ b) = (String.length a + String.length b)%nat.
Proof. induction a as [|x a IH]; cbn; [reflexivity|]. f_equal. exact IH. Qed.

Lemma strip_prefix_Some p s t : strip_prefix p s = Some t -> s = (p ++ t)%string.
Proof.
  revert s. induction p as [|x p IH]; intros s H; cbn in H.
  - injection H as <-. reflexivity.
  - destruct s as [|y s]; [discriminate|].
    destruct (Ascii.eqb x y) eqn:E; [|discriminate].
    apply Ascii.eqb_eq in E. subst y. cbn. f_equal. apply IH, H.
Qed.

Lemma strip_prefix_app p t : strip_prefix p (p ++ t) = Some t.
Proof. induction p as [|x p IH]; cbn; [reflexivity|]. rewrite Ascii.eqb_refl. exact IH. Qed.

Lemma span_ref_spec s :
  let '(r, rest) := span_ref s in
  s = (r ++ rest)%string /\ Forall (fun c => is_ref_delim c = false) (list_ascii_of_string r) /\
  match rest with EmptyString => True | String c _ => is_ref_delim c = true end.
Proof.
  induction s as [|c s IH]; cbn; [auto|].
  destruct (is_ref_delim c) eqn:Hc; [cbn; auto|].
  destruct (span_ref s) as [r rest]. destruct IH as [-> [Hr Hrest]].
  split; [reflexivity|]. split; [constructor; assumption|exact Hrest].
Qed.

Lemma findall_sound fuel : forall s r,
  In r (findall_refs fuel s) ->
  r <> EmptyString /\ Forall (fun c => is_ref_delim c = false) (list_ascii_of_string r) /\
  exists pre post, s = (pre ++ REF_PREFIX ++ r ++ post)%string /\
    match post with EmptyString => True | String c _ => is_ref_delim c = true end.
Proof.
  induction fuel as [|fuel IH]; intros s r H; cbn [findall_refs] in H; [destruct H|].
  destruct s as [|c s']; [destruct H|].
  destruct (strip_prefix REF_PREFIX (String c s')) as [t|] eqn:Hs.
  - apply strip_prefix_Some in Hs.
    pose proof (span_ref_spec t) as Hsp.
    destruct (span_ref t) as [[|x r0] rest]; destruct Hsp as [Ht [Hr0 Hrest]].
    + destruct (IH s' r H) as [Hne [Hr [pre [post [E Hp]]]]].
      split; [exact Hne|]. split; [exact Hr|]. exists (String c pre), post.
      split; [rewrite E; reflexivity|exact Hp].
    + destruct H as [<-|H].
      * split; [discriminate|]. split; [exact Hr0|]. exists EmptyString, rest.
        split; [rewrite Hs, Ht; reflexivity|exact Hrest].
      * destruct (IH rest r H) as [Hne [Hr [pre [post [E Hp]]]]].
        split; [exact Hne|]. split; [exact Hr|].
        exists (REF_PREFIX ++ String x r0 ++ pre)%string, post. split; [|exact Hp].
        rewrite Hs, Ht, E. rewrite !string_app_assoc. reflexivity.
  - destruct (IH s' r H) as [Hne [Hr [pre [post [E Hp]]]]].
    split; [exact Hne|]. split; [exact Hr|]. exists (String c pre), post.
    split; [rewrite E; reflexivity|exact Hp].
Qed.

(** Every path extracted from the HTML is non-empty, contains no quote,
    no [)] and no whitespace, occurs in the text right after [images/],
    and is followed there by a delimiter or by the end of the text: the
    capture is the whole maximal run, never a part of it. *)
Theorem html_refs_sound html r :
  In r (html_refs_of html) ->
  r <> EmptyString /\ Forall (fun c => is_ref_delim c = false) (list_ascii_of_string r) /\
  exists pre post, html = (pre ++ REF_PREFIX ++ r ++ post)%string /\
    match post with EmptyString => True | String c _ => is_ref_delim c = true end.
Proof. apply findall_sound. Qed.

Lemma span_ref_length t r rest :
  span_ref t = (r, rest) -> String.length t = (String.length r + String.length rest)%nat.
Proof.
  intros H. pose proof (span_ref_spec t) as Hs. rewrite H in Hs. destruct Hs as [-> _].
  apply string_length_app.
Qed.

Lemma findall_fuel_S fuel : forall s,
  (String.length s <= fuel)%nat -> findall_refs (S fuel) s = findall_refs fuel s.
Proof.
  induction fuel as [|fuel IH]; intros s Hs.
  - destruct s; [reflexivity|cbn in Hs; lia].
  - destruct s as [|c s']; [reflexivity|]. cbn in Hs.
    cbn [findall_refs].
    destruct (strip_prefix REF_PREFIX (String c s')) as [t|] eqn:Hst;
      [|apply IH; lia].
    apply strip_prefix_Some in Hst.
    destruct (span_ref t) as [[|x r] rest] eqn:Hsp; [apply IH; lia|].
    f_equal. apply IH.
    apply (f_equal String.length) in Hst. rewrite string_length_app in Hst.
    rewrite (span_ref_length _ _ _ Hsp) in Hst. cbn in Hst. lia.
Qed.

Lemma findall_fuel fuel s :
  (String.length s <= fuel)%nat -> findall_refs fuel s = html_refs_of s.
Proof.
  intros H. unfold html_refs_of. induction H as [|fuel H IH]; [reflexivity|].
  rewrite findall_fuel_S by exact H. exact IH.
Qed.

Lemma html_refs_skip c s :
  match strip_prefix REF_PREFIX (String c s) with
  | Some t => fst (span_ref t) = EmptyString
  | None => True
  end ->
  html_refs_of (String c s) = html_refs_of s.
Proof.
  intros H. unfold html_refs_of at 1. cbn [String.length findall_refs].
  destruct (strip_prefix REF_PREFIX (String c s)) as [t|];
    [destruct (span_ref t) as [[|x r] rest]; cbn in H; [|discriminate]|];
    apply findall_fuel; lia.
Qed.

Lemma span_ref_app r rest :
  Forall (fun c => is_ref_delim c = false) (list_ascii_of_string r) ->
  match rest with EmptyString => True | String c _ => is_ref_delim c = true end ->
  span_ref (r ++ rest) = (r, rest).
Proof.
  intros Hr Hrest. induction r as [|x r IH].
  - destruct rest as [|c rest]; [reflexivity|]. cbn [append span_ref]. rewrite Hrest.
    reflexivity.
  - inversion Hr as [|? ? Hx Hr']; subst. cbn [append span_ref]. rewrite Hx.
    rewrite (IH Hr'). reflexivity.
Qed.

Lemma html_refs_match r rest :
  r <> EmptyString -> Forall (fun c => is_ref_delim c = false) (list_ascii_of_string r) ->
  match rest with EmptyString => True | String c _ => is_ref_delim c = true end ->
  html_refs_of (REF_PREFIX ++ r ++ rest) = r :: html_refs_of rest.
Proof.
  intros Hne Hr Hrest.
  pose proof (span_ref_app r rest Hr Hrest) as Hsp.
  unfold html_refs_of at 1. change (REF_PREFIX ++ r ++ rest)%string
    with (String "i" ("mages/" ++ r ++ rest))%string.
  cbn [String.length findall_refs].
  change (String "i" ("mages/" ++ r ++ rest))%string with (REF_PREFIX ++ r ++ rest)%string.
  rewrite strip_prefix_app, Hsp.
  destruct r as [|x r']; [congruence|]. f_equal. apply findall_fuel.
  rewrite !string_length_app. cbn. lia.
Qed.

Lemma ends_delim_tail c a :
  (exists p0 d, String c a = (p0 ++ String d EmptyString)%string /\ is_ref_delim d = true) ->
  (a = EmptyString /\ is_ref_delim c = true) \/
  (exists p0 d, a = (p0 ++ String d EmptyString)%string /\ is_ref_delim d = true).
Proof.
  intros [[|y p0] [d [E Hd]]]; cbn in E; injection E as -> ->.
  - left. auto.
  - right. exists p0, d. auto.
Qed.

Lemma strip_prefix_delim p a b t :
  Forall (fun c => is_ref_delim c = false) (list_ascii_of_string p) ->
  (exists p0 d, a = (p0 ++ String d EmptyString)%string /\ is_ref_delim d = true) ->
  strip_prefix p (a ++ b) = Some t ->
  exists a2, a = (p ++ a2)%string /\ t = (a2 ++ b)%string /\
    (exists p0 d, a2 = (p0 ++ String d EmptyString)%string /\ is_ref_delim d = true).
Proof.
  revert a. induction p as [|x p IH]; intros a Hp Ha H.
  - cbn in H. injection H as <-. exists a. auto.
  - destruct a as [|y a'].
    { destruct Ha as [[|? ?] [? [E _]]]; discriminate E. }
    cbn in H. destruct (Ascii.eqb x y) eqn:E; [|discriminate].
    apply Ascii.eqb_eq in E. subst y.
    inversion Hp as [|? ? Hx Hp']; subst.
    destruct (ends_delim_tail _ _ Ha) as [[-> Hd]|Ha']; [congruence|].
    destruct (IH a' Hp' Ha' H) as [a2 [-> [Ht Ha2]]].
    exists a2. auto.
Qed.

Lemma span_ref_delim a b :
  (exists p0 d, a = (p0 ++ String d EmptyString)%string /\ is_ref_delim d = true) ->
  let '(r, rest) := span_ref a in
  span_ref (a ++ b) = (r, (rest ++ b)%string) /\
  (exists p0 d, rest = (p0 ++ String d EmptyString)%string /\ is_ref_delim d = true).
Proof.
  induction a as [|c a IH]; intros Ha.
  { destruct Ha as [[|? ?] [? [E _]]]; discriminate E. }
  cbn [span_ref append]. destruct (is_ref_delim c) eqn:Hc.
  - split; [reflexivity|exact Ha].
  - destruct (ends_delim_tail _ _ Ha) as [[-> Hd]|Ha']; [congruence|].
    specialize (IH Ha'). destruct (span_ref a) as [r rest].
    destruct IH as [-> Hrest]. split; [reflexivity|exact Hrest].
Qed.

Lemma html_refs_step c s t x r rest :
  strip_prefix REF_PREFIX (String c s) = Some t -> span_ref t = (String x r, rest) ->
  html_refs_of (String c s) = String x r :: html_refs_of rest.
Proof.
  intros Hs Hsp. pose proof (strip_prefix_Some _ _ _ Hs) as E.
  unfold html_refs_of at 1. cbn [String.length findall_refs]. rewrite Hs, Hsp.
  f_equal. apply findall_fuel.
  apply (f_equal String.length) in E. rewrite string_length_app in E.
  rewrite (span_ref_length _ _ _ Hsp) in E. cbn in E. lia.
Qed.

Lemma REF_PREFIX_nodelim :
  Forall (fun c => is_ref_delim c = false) (list_ascii_of_string REF_PREFIX).
Proof. repeat constructor. Qed.

Lemma html_refs_prefix n : forall pre post,
  (String.length pre <= n)%nat ->
  (pre = EmptyString \/
   exists p0 d, pre = (p0 ++ String d EmptyString)%string /\ is_ref_delim d = true) ->
  exists l, html_refs_of (pre ++ post) = l ++ html_refs_of post.
Proof.
  induction n as [|n IH]; intros pre post Hn Hpre.
  - destruct pre; [exists []; reflexivity|cbn in Hn; lia].
  - destruct Hpre as [->|Hd]; [exists []; reflexivity|].
    destruct pre as [|c pre1].
    { destruct Hd as [[|? ?] [? [E _]]]; discriminate E. }
    cbn in Hn.
    assert (Htail : pre1 = EmptyString \/
              exists p0 d, pre1 = (p0 ++ String d EmptyString)%string /\ is_ref_delim d = true)
      by (destruct (ends_delim_tail _ _ Hd) as [[-> _]|H]; [left; reflexivity|right; exact H]).
    change ((String c pre1 ++ post)%string) with (String c (pre1 ++ post)).
    destruct (strip_prefix REF_PREFIX (String c (pre1 ++ post))) as [t|] eqn:Hs.
    + pose proof Hs as Hs'.
      change (String c (pre1 ++ post)) with ((String c pre1 ++ post)%string) in Hs'.
      destruct (strip_prefix_delim _ _ _ _ REF_PREFIX_nodelim Hd Hs') as [a2 [Ea [-> Ha2]]].
      pose proof (span_ref_delim a2 post Ha2) as Hsp.
      destruct (span_ref a2) as [[|x r] rest] eqn:Ha2s; destruct Hsp as [Hsp Hrest].
      * rewrite html_refs_skip by (rewrite Hs, Hsp; reflexivity).
        apply IH; [lia|exact Htail].
      * rewrite (html_refs_step _ _ _ _ _ _ Hs Hsp).
        destruct (IH rest post) as [l Hl]; [|right; exact Hrest|].
        { pose proof (span_ref_length _ _ _ Ha2s) as L.
          apply (f_equal String.length) in Ea. rewrite string_length_app in Ea.
          cbn in Ea, L. lia. }
        exists (String x r :: l). rewrite Hl. reflexivity.
    + rewrite html_refs_skip by (rewrite Hs; exact I).
      apply IH; [lia|exact Htail].
Qed.

(** Conversely, a reference [images/r] with [r] a non-empty run of
    non-delimiters, followed by a delimiter or the end of the text and
    preceded by nothing or by a delimiter (as in [src='images/r'] or
    [url(images/r)]), is always extracted: matches found earlier in the
    text never swallow it. *)
Theorem html_refs_complete pre r post :
  r <> EmptyString -> Forall (fun c => is_ref_delim c = false) (list_ascii_of_string r) ->
  (pre = EmptyString \/
   exists p0 d, pre = (p0 ++ String d EmptyString)%string /\ is_ref_delim d = true) ->
  match post with EmptyString => True | String c _ => is_ref_delim c = true end ->
  In r (html_refs_of (pre ++ REF_PREFIX ++ r ++ post)).
Proof.
  intros Hne Hr Hpre Hpost.
  destruct (html_refs_prefix (String.length pre) pre (REF_PREFIX ++ r ++ post)
              (le_n _) Hpre) as [l ->].
  rewrite html_refs_match by assumption.
  apply in_or_app. right. left. reflexivity.
Qed.

Lemma html_refs_sound_witness :
  In "lake.jpg"%string (html_refs_of "<img src='images/lake.jpg'>") /\
  ("lake.jpg"%string <> EmptyString /\
   Forall (fun c => is_ref_delim c = false) (list_ascii_of_string "lake.jpg") /\
   exists pre post, "<img src='images/lake.jpg'>"%string = (pre ++ REF_PREFIX ++ "lake.jpg" ++ post)%string /\
     match post with EmptyString => True | String c _ => is_ref_delim c = true end).
Proof.
  assert (H : In "lake.jpg"%string (html_refs_of "<img src='images/lake.jpg'>"))
    by (vm_compute; left; reflexivity).
  split; [exact H|]. exact (html_refs_sound _ _ H).
Defined.

Lemma html_refs_complete_witness :
  "lake.jpg"%string <> EmptyString /\
  Forall (fun c => is_ref_delim c = false) (list_ascii_of_string "lake.jpg") /\
  ("url('"%string = EmptyString \/
   exists p0 d, "url('"%string = (p0 ++ String d EmptyString)%string /\ is_ref_delim d = true) /\
  is_ref_delim "'"%char = true /\
  In "lake.jpg"%string (html_refs_of ("url('" ++ REF_PREFIX ++ "lake.jpg" ++ "')")).
Proof.
  assert (H1 : "lake.jpg"%string <> EmptyString) by discriminate.
  assert (H2 : Forall (fun c => is_ref_delim c = false) (list_ascii_of_string "lake.jpg"))
    by (cbn; repeat constructor).
  assert (H3 : "url('"%string = EmptyString \/
               exists p0 d, "url('"%string = (p0 ++ String d EmptyString)%string /\
                            is_ref_delim d = true)
    by (right; exists "url("%string, "'"%char; split; reflexivity).
  assert (H4 : is_ref_delim "'"%char = true) by reflexivity.
  split; [exact H1|]. split; [exact H2|]. split; [exact H3|]. split; [exact H4|].
  exact (html_refs_complete "url('" "lake.jpg" "')" H1 H2 H3 H4).
Defined.

End HtmlRefsFacts.

Module OptimizeExtras.

Import PyStr PyStrFacts PyFloat PyFloatFacts Optimize OptimizeExamples OptimizeFacts.

Lemma int_times_le S m e :
  0 <= S < 2 ^ 40 -> 0 < m -> e < 0 -> m <= 2 ^ (- e) ->
  0 <= int_times S (m, e) <= S.
Proof.
  intros HS Hm He Hme. destruct (Z.eq_dec S 0) as [->|HS0].
  { rewrite int_times_zero. lia. }
  rewrite int_times_eq by lia.
  assert (Hq : 0 < 2 ^ (- e)) by (apply pow2_pos; lia).
  set (q := 2 ^ (- e)) in *.
  assert (Hp : 0 < S * m) by (apply Z.mul_pos_pos; lia).
  assert (Hpq : S * m < 2 ^ 50 * q).
  { assert (S * m <= S * q) by (apply Z.mul_le_mono_nonneg_l; lia).
    assert (S * q < 2 ^ 50 * q) by (apply Z.mul_lt_mono_pos_r; lia). lia. }
  pose proof (round_div_small (S * m) q Hp Hq Hpq) as Hr.
  destruct (round_div (S * m) q) as [m' e'].
  destruct Hr as [He' [Hfl [[Hlo Hhi] Hbig]]].
  set (K := 2 ^ (- e')) in *.
  assert (HK : 0 < K) by (apply pow2_pos; lia).
  assert (Hm0 : 0 <= m').
  { assert (0 <= S * m * K / q) by (apply Z.div_pos; nia). lia. }
  rewrite ftrunc_neg by lia. fold K. split; [apply Z.div_pos; lia|].
  apply Z.div_le_upper_bound; [lia|].
  assert (HmK : S * m * K <= S * K * q).
  { replace (S * m * K) with (S * K * m) by ring.
    apply Z.mul_le_mono_nonneg_l; [nia|lia]. }
  destruct (Z_le_gt_dec m' (S * K)) as [H|H]; [lia|exfalso].
  assert ((S * K + 1) * q <= m' * q) by (apply Z.mul_le_mono_nonneg_r; lia).
  lia.
Qed.

Lemma path_eqb_eq p q : path_eqb p q = true <-> p = q.
Proof.
  destruct p as [d s x], q as [d' s' x']. unfold path_eqb. cbn.
  rewrite !andb_true_iff, !String.eqb_eq. split.
  - intros [[-> ->] ->]. reflexivity.
  - intros H. injection H as -> -> ->. auto.
Qed.

Lemma path_eqb_false p q : p <> q -> path_eqb p q = false.
Proof. intros H. destruct (path_eqb p q) eqn:E; [apply path_eqb_eq in E; contradiction|reflexivity]. Qed.

Lemma lookup_write w p f q :
  lookup (files (write_file w p f)) q = if path_eqb p q then Some f else lookup (files w) q.
Proof.
  unfold write_file. cbn [files lookup]. destruct (path_eqb p q) eqn:Hpq; [reflexivity|].
  induction (files w) as [|[r g] l IH]; [reflexivity|].
  cbn [filter fst]. destruct (path_eqb r p) eqn:Hrp; cbn [negb lookup].
  - apply path_eqb_eq in Hrp. subst r. rewrite Hpq. exact IH.
  - destruct (path_eqb r q); [reflexivity|exact IH].
Qed.

Lemma path_eqb_refl p : path_eqb p p = true.
Proof. apply path_eqb_eq. reflexivity. Qed.

Lemma webp_sibling_ne fp :
  lower (psuffix fp) <> ".webp"%string -> path_eqb (with_suffix fp ".webp") fp = false.
Proof.
  intros H. apply path_eqb_false. intros E. apply H.
  destruct fp as [d s x]. unfold with_suffix in E. cbn in E. injection E as <-. reflexivity.
Qed.

(** Symbolic execution that keeps [write_file] folded, so that lookups
    in the final file list can be rewritten with [lookup_write]. *)
Ltac run_defs_w :=
  cbv beta iota zeta delta [optimize_image optimize_body get_file_size bind ret raise lw
    image_open cap_oversized resize load convert save close path_exists set_new_size
    set_webp_size with_error with_skipped with_new_size with_webp_size acquire_fd
    release_fd negb orb andb fst snd] in *;
  cbn [files writes read_only open_fds im_w im_h im_mode im_loaded im_decodes im_fp
       sfile original_size new_size webp_size skipped error] in *.

Ltac run_all_w := run_defs_w; repeat (destruct_inner; run_defs_w).

Section Oracles.

Variable enc : string -> image -> Z -> Z.
Variable can : string -> string -> bool.

Lemma dry_file fp jq wq w :
  let '(w', r) := optimize_image enc can fp jq wq true w in
  files w' = files w /\ writes w' = writes w /\
  match r with
  | inr st =>
      (exists f, lookup (files w) fp = Some f /\ original_size st = fsize f) /\
      (new_size st = original_size st \/ new_size st = int_times (original_size st) F0_65 \/
       new_size st = int_times (original_size st) F0_85) /\
      (webp_size st = 0 \/ webp_size st = int_times (original_size st) F0_5)
  | inl _ => True
  end.
Proof.
  run_all; (split; [reflexivity|]); (split; [reflexivity|]); try exact I; cbn.
  all: (split; [eexists; split; reflexivity|]); tauto.
Qed.

Lemma dry_loop fs jq wq : forall res0 to0 tn0 tw0 w,
  let '(w', r) := batch_loop enc can fs jq wq true res0 to0 tn0 tw0 w in
  files w' = files w /\ writes w' = writes w /\
  ((forall p f, lookup (files w) p = Some f -> 0 <= fsize f < 2 ^ 40) ->
   match r with
   | inr (_, to, tn, tw) => 0 <= tn - tn0 <= to - to0 /\ 0 <= 2 * (tw - tw0) <= to - to0
   | inl _ => True
   end).
Proof.
  induction fs as [|fp fs IH]; intros res0 to0 tn0 tw0 w.
  - cbn [batch_loop]. unfold ret. cbv beta iota. split; [reflexivity|]. split; [reflexivity|]. intros _. lia.
  - cbn [batch_loop]. unfold bind.
    pose proof (dry_file fp jq wq w) as Hf.
    destruct (optimize_image enc can fp jq wq true w) as [w1 [e|st]].
    + destruct Hf as [Hf1 [Hw1 _]]. split; [exact Hf1|]. split; [exact Hw1|]. intros _. exact I.
    + destruct Hf as [Hf1 [Hw1 [[f [Hl Ho]] [Hn Hwp]]]].
      specialize (IH (res0 ++ [st]) (to0 + original_size st) (tn0 + new_size st)
                    (tw0 + webp_size st) w1).
      destruct (batch_loop enc can fs jq wq true (res0 ++ [st]) (to0 + original_size st)
                  (tn0 + new_size st) (tw0 + webp_size st) w1) as [w2 r2].
      destruct IH as [Hf2 [Hw2 Hb]].
      split; [congruence|]. split; [congruence|]. intros Hsz.
      rewrite <- Hf1 in Hsz. specialize (Hb Hsz). rewrite Hf1 in Hsz.
      destruct r2 as [e|[[[res to] tn] tw]]; [exact I|].
      pose proof (Hsz _ _ Hl) as HS. rewrite <- Ho in HS.
      assert (Hnew : 0 <= new_size st <= original_size st).
      { destruct Hn as [->|[->| ->]]; [lia| |];
          apply int_times_le; try lia; reflexivity. }
      assert (Hweb : 0 <= 2 * webp_size st <= original_size st).
      { destruct Hwp as [->| ->]; [lia|]. rewrite int_times_0_5 by lia.
        pose proof (Z.mul_div_le (original_size st) 2). pose proof (Z.div_pos (original_size st) 2).
        lia. }
      lia.
Qed.

(** Outside a dry run, a file processed without exception and not skipped
    ends with its WebP sibling on disk at the reported [webp_size] (written
    even if one existed); a [.jpg], [.jpeg] or [.png] file is rewritten in
    place at the reported [new_size], with no check that it shrank, and any
    other file reports its original size. *)
Theorem optimize_image_disk_sizes fp jq wq w :
  let ext := lower (psuffix fp) in
  let '(w', r) := optimize_image enc can fp jq wq false w in
  forall st, r = inr st -> error st = None -> skipped st = false ->
  (if mem ext JPEG_EXTS || String.eqb ext ".png"
   then exists f, lookup (files w') fp = Some f /\ fsize f = new_size st
   else new_size st = original_size st) /\
  exists g, lookup (files w') (with_suffix fp ".webp") = Some g /\ fsize g = webp_size st.
Proof.
  cbv zeta. run_all_w.
  all: intros st Hst Herr Hsk; (discriminate Hst || injection Hst as <-);
       cbn [error skipped new_size webp_size original_size] in *; try discriminate.
  all: try (assert (Hne : path_eqb (with_suffix fp ".webp") fp = false)
             by (apply webp_sibling_ne; intros E; rewrite E in *; discriminate)).
  all: try (assert (Hne' : path_eqb fp (with_suffix fp ".webp") = false)
             by (destruct (path_eqb fp (with_suffix fp ".webp")) eqn:E; [|reflexivity];
                 apply path_eqb_eq in E; rewrite <- E, path_eqb_refl in Hne; discriminate)).
  all: rewrite ?lookup_write, ?path_eqb_refl, ?Hne, ?Hne' in *.
  all: repeat match goal with H : Some _ = Some _ |- _ => injection H as <- end.
  all: repeat match goal with H : ?b = true |- context [?b] => rewrite H end;
       repeat match goal with H : ?b = false |- context [?b] => rewrite H end; cbn [orb].
  all: try (exfalso; congruence).
  all: split; [|eexists; split; reflexivity].
  all: first [eexists; split; reflexivity | reflexivity].
Qed.

(** A dry run of the batch never changes a file and writes nothing, for
    any list of files: small, missing, unreadable or undecodable ones
    included, and also when the batch stops on a missing file. *)
Theorem dry_run_batch_unchanged fs jq wq w :
  let '(w', _) := run_batch enc can fs jq wq true w in
  files w' = files w /\ writes w' = writes w.
Proof.
  unfold run_batch. pose proof (dry_loop fs jq wq [] 0 0 0 w) as H.
  destruct (batch_loop enc can fs jq wq true [] 0 0 0 w) as [w' r].
  destruct H as [H1 [H2 _]]. split; assumption.
Qed.

(** When every file is smaller than [2^40] bytes, a completed dry run
    reports totals with [0 <= total_new <= total_original] and
    [0 <= 2 * total_webp <= total_original]: the estimated saving printed
    at lines 161-166 is never negative. *)
Theorem dry_run_batch_totals fs jq wq w :
  (forall p f, lookup (files w) p = Some f -> 0 <= fsize f < 2 ^ 40) ->
  match run_batch enc can fs jq wq true w with
  | (_, inr (_, total_original, total_new, total_webp)) =>
      0 <= total_new <= total_original /\ 0 <= 2 * total_webp <= total_original
  | (_, inl _) => True
  end.
Proof.
  intros Hb. unfold run_batch. pose proof (dry_loop fs jq wq [] 0 0 0 w) as H.
  destruct (batch_loop enc can fs jq wq true [] 0 0 0 w) as [w' [e|[[[res to] tn] tw]]];
    [exact I|].
  destruct H as [_ [_ H]]. specialize (H Hb). lia.
Qed.

End Oracles.

Lemma dry_run_batch_totals_witness :
  (forall p f, lookup (files site) p = Some f -> 0 <= fsize f < 2 ^ 40) /\
  match run_batch sample_encoded_size pillow_can_encode
          [icon_jpg; lake_jpg; deck_jpg; truncated_jpg; tall_jpg] 82 80 true site with
  | (_, inr (_, total_original, total_new, total_webp)) =>
      0 <= total_new <= total_original /\ 0 <= 2 * total_webp <= total_original
  | (_, inl _) => True
  end.
Proof.
  assert (Hb : forall p f, lookup (files site) p = Some f -> 0 <= fsize f < 2 ^ 40).
  { intros p f H. unfold site in H. cbn [files lookup] in H.
    repeat match goal with
           | H : (if ?b then _ else _) = _ |- _ => destruct b
           | H : Some _ = Some _ |- _ => injection H as <-
           end; try discriminate;
    split; vm_compute; try discriminate; reflexivity. }
  split; [exact Hb|].
  exact (dry_run_batch_totals sample_encoded_size pillow_can_encode
           [icon_jpg; lake_jpg; deck_jpg; truncated_jpg; tall_jpg] 82 80 site Hb).
Defined.

End OptimizeExtras.

Module SelectFacts.

Import PyStr PyStrFacts Optimize.

Lemma string_compare_le_trans s1 s2 s3 :
  String.compare s1 s2 <> Gt -> String.compare s2 s3 <> Gt -> String.compare s1 s3 <> Gt.
Proof.
  revert s2 s3. induction s1 as [|a s1 IH]; intros [|b s2] [|c s3]; cbn; try congruence.
  unfold Ascii.compare.
  destruct (N.compare_spec (N_of_ascii a) (N_of_ascii b));
  destruct (N.compare_spec (N_of_ascii b) (N_of_ascii c));
  destruct (N.compare_spec (N_of_ascii a) (N_of_ascii c)); try lia; try congruence.
  apply IH.
Qed.

Lemma string_leb_trans s1 s2 s3 :
  String.leb s1 s2 = true -> String.leb s2 s3 = true -> String.leb s1 s3 = true.
Proof.
  unfold String.leb. intros H1 H2.
  assert (Hc : String.compare s1 s3 <> Gt).
  { apply string_compare_le_trans with s2;
      [destruct (String.compare s1 s2) | destruct (String.compare s2 s3)]; congruence. }
  destruct (String.compare s1 s3); congruence.
Qed.

Lemma insert_name_In x n l : In x (insert_name n l) <-> x = n \/ In x l.
Proof.
  induction l as [|m l IH]; cbn; [intuition congruence|].
  destruct (String.leb n m); cbn; [intuition congruence|]. rewrite IH. intuition congruence.
Qed.

Lemma sort_names_In x l : In x (sort_names l) <-> In x l.
Proof.
  induction l as [|n l IH]; cbn; [tauto|]. rewrite insert_name_In, IH. intuition congruence.
Qed.

Lemma insert_name_sorted n l :
  Sorted (fun a b => String.leb a b = true) l ->
  Sorted (fun a b => String.leb a b = true) (insert_name n l).
Proof.
  induction 1 as [|m l Hs IH Hhd]; cbn.
  - repeat constructor.
  - destruct (String.leb n m) eqn:Hnm.
    + constructor; [constructor; assumption | constructor; exact Hnm].
    + assert (Hmn : String.leb m n = true)
        by (destruct (String.leb_total n m); congruence).
      constructor; [exact IH|].
      destruct l as [|k l]; cbn.
      * constructor. exact Hmn.
      * apply HdRel_inv in Hhd.
        destruct (String.leb n k); constructor; assumption.
Qed.

Lemma sort_names_sorted l : Sorted (fun a b => String.leb a b = true) (sort_names l).
Proof. induction l as [|n l IH]; cbn; [constructor|]. apply insert_name_sorted, IH. Qed.

Lemma length_substring i m s :
  (i + m <= String.length s)%nat -> String.length (substring i m s) = m.
Proof.
  revert i m. induction s as [|c s IH]; intros i m H; cbn in H.
  - assert (i = 0%nat /\ m = 0%nat) as [-> ->] by lia. reflexivity.
  - destruct i as [|i]; cbn.
    + destruct m as [|m]; cbn; [reflexivity|]. f_equal. apply IH. lia.
    + apply IH. lia.
Qed.

Lemma substring_all s : substring 0 (String.length s) s = s.
Proof. induction s as [|c s IH]; cbn; [reflexivity|]. f_equal. exact IH. Qed.

Lemma substring_split i s :
  (i <= String.length s)%nat ->
  (substring 0 i s ++ substring i (String.length s - i) s)%string = s.
Proof.
  revert i. induction s as [|c s IH]; intros i H; cbn in H.
  - assert (i = 0%nat) as -> by lia. reflexivity.
  - destruct i as [|i]; cbn.
    + rewrite ?Nat.sub_0_r. f_equal. apply substring_all.
    + f_equal. apply IH. lia.
Qed.


Lemma rfind_dot_from_bound i s acc :
  (forall k, acc = Some k -> (k < i)%nat) ->
  forall k, rfind_dot_from i s acc = Some k -> (k < i + String.length s)%nat.
Proof.
  revert i acc. induction s as [|c s IH]; intros i acc Hacc k Hk; cbn in Hk |- *.
  - specialize (Hacc k Hk). lia.
  - apply IH in Hk; [lia|]. intros k' Hk'.
    destruct (Ascii.eqb c "."); [injection Hk' as <-; lia|]. specialize (Hacc k' Hk'). lia.
Qed.

Lemma string_app_nil_r s : (s ++ EmptyString)%string = s.
Proof. induction s as [|c s IH]; cbn; [reflexivity|]. f_equal. exact IH. Qed.

Lemma path_of_name dir n : pdir (path_of dir n) = dir /\ path_name (path_of dir n) = n.
Proof.
  split; [reflexivity|]. unfold path_of, path_name. cbn [pstem psuffix].
  unfold suffix. destruct (rfind_dot n) as [i|] eqn:Hi.
  - pose proof (rfind_dot_from_bound 0 n None ltac:(discriminate) i Hi) as Hb.
    destruct ((0 <? i)%nat && (i <? String.length n - 1)%nat)%bool.
    + rewrite length_substring by lia.
      replace (String.length n - (String.length n - i))%nat with i by lia.
      apply substring_split. lia.
    + cbn [String.length]. rewrite Nat.sub_0_r, substring_all. apply string_app_nil_r.
  - cbn [String.length]. rewrite Nat.sub_0_r, substring_all. apply string_app_nil_r.
Qed.

Lemma strongly_sorted_filter {A} (R : A -> A -> Prop) (f : A -> bool) l :
  StronglySorted R l -> StronglySorted R (filter f l).
Proof.
  induction 1 as [|a l Hs IH Hf]; cbn; [constructor|].
  destruct (f a); [|exact IH]. constructor; [exact IH|].
  apply Forall_forall. intros x Hx. apply filter_In in Hx as [Hx _].
  exact (proj1 (Forall_forall _ _) Hf x Hx).
Qed.

Lemma strongly_sorted_map {A B} (R : A -> A -> Prop) (R' : B -> B -> Prop) (f : A -> B) l :
  (forall a b, R a b -> R' (f a) (f b)) -> StronglySorted R l -> StronglySorted R' (map f l).
Proof.
  intros HR. induction 1 as [|a l Hs IH Hf]; cbn; [constructor|].
  constructor; [exact IH|]. apply Forall_map. eapply Forall_impl; [|exact Hf]. auto.
Qed.

(** Without command-line arguments, [main] selects exactly the entries of
    [IMAGE_DIR] whose lowercased suffix is [.jpg], [.jpeg] or [.png] (never
    the [.webp] files it writes, nor dotfiles such as [.png], whose suffix
    is empty), as paths in [IMAGE_DIR] that keep the entry's name, sorted
    by name. *)
Theorem select_files_default dir listing :
  (forall p, In p (select_files dir [] listing) <->
     exists n, In n listing /\ mem (lower (suffix n)) SELECT_EXTS = true /\ p = path_of dir n) /\
  (forall n, pdir (path_of dir n) = dir /\ path_name (path_of dir n) = n) /\
  StronglySorted (fun p q => String.leb (path_name p) (path_name q) = true)
    (select_files dir [] listing).
Proof.
  split; [|split; [apply path_of_name|]].
  - intros p. unfold select_files. rewrite filter_In, in_map_iff. split.
    + intros [[n [<- Hn]] Hm]. exists n. rewrite sort_names_In in Hn. auto.
    + intros [n [Hn [Hm ->]]]. split; [|exact Hm]. exists n. rewrite sort_names_In. auto.
  - unfold select_files. apply strongly_sorted_filter.
    apply strongly_sorted_map with (R := fun a b => String.leb a b = true).
    + intros a b H. rewrite !(proj2 (path_of_name dir _)). exact H.
    + apply Sorted_StronglySorted; [|apply sort_names_sorted].
      intros a b c. apply string_leb_trans.
Qed.

End SelectFacts.
